(** * Weather-247: the client-side utilities of [backend/static/js/weather.js]

  A shallow embedding of the script's pure helpers ([WeatherUtils]), its
  chart helpers ([ChartUtils]), its API client ([WeatherAPI]), the rate
  limiters and the toast of [UIUtils], the search box, the localStorage
  helper ([StorageUtils]) and the TTL cache ([WeatherCache]), followed by
  the properties proved about them.

  Conventions of the embedding:
  - a JavaScript number is an exact rational ([Q]); integral results
    ([Math.round], [Date.now], timer deadlines) are integers ([Z]);
  - an [undefined] array element or [Map] entry is [None]; the [null] that
    the cache returns is the JSON value [JNull];
  - code that can throw runs in an exception-and-state monad [JS.M];
  - the clock and the event loop are explicit: [Date.now()] is an argument,
    timers live in a queue that the event loop drains. *)

From Stdlib Require Import ZArith QArith Qround Lia Lqa List Sorted Ascii.
From stdpp Require Import gmap strings list fin_maps pretty.

Local Open Scope Z_scope.
Set Warnings "-register-all,-notation-for-abbreviation".

(** ** WeatherUtils *)

Module WeatherUtils.

(** The object literal returned by [getAQILevel]. *)
Record aqi_level := AqiLevel {
  level : string;
  color : string;
  description : string
}.

Definition getAQILevel (aqi : Q) : aqi_level :=
  if Qle_bool aqi (50 # 1) then
    AqiLevel "Good" "green" "Air quality is satisfactory"
  else if Qle_bool aqi (100 # 1) then
    AqiLevel "Moderate" "yellow" "Air quality is acceptable"
  else if Qle_bool aqi (150 # 1) then
    AqiLevel "Unhealthy for Sensitive Groups" "orange"
             "Some pollutants may affect sensitive individuals"
  else if Qle_bool aqi (200 # 1) then
    AqiLevel "Unhealthy" "red" "Everyone may begin to experience health effects"
  else if Qle_bool aqi (300 # 1) then
    AqiLevel "Very Unhealthy" "purple" "Health warnings of emergency conditions"
  else
    AqiLevel "Hazardous" "maroon"
             "Health alert: everyone may experience more serious health effects".

(** [Math.round]: the nearest integer, ties towards +infinity. *)
Definition Math_round (x : Q) : Z := Qfloor (x + (1 # 2)).

(** The [%] operator on integral operands: the sign follows the dividend. *)
Definition js_rem (a b : Z) : Z := Z.rem a b.

(** [arr[i]] for an integral index: [undefined] (here [None]) outside
    [0 .. length-1]. *)
Definition array_get {A} (arr : list A) (i : Z) : option A :=
  if i <? 0 then None else arr !! Z.to_nat i.

Definition directions : list string :=
  ["N"; "NNE"; "NE"; "ENE"; "E"; "ESE"; "SE"; "SSE";
   "S"; "SSW"; "SW"; "WSW"; "W"; "WNW"; "NW"; "NNW"].

(** [Math.round(degrees / 22.5) % 16] *)
Definition windIndex (degrees : Q) : Z :=
  js_rem (Math_round (degrees / (45 # 2))) 16.

Definition getWindDirection (degrees : Q) : option string :=
  array_get directions (windIndex degrees).

(** [(celsius * 9/5) + 32] parses as [((celsius * 9) / 5) + 32]. *)
Definition celsiusToFahrenheit (celsius : Q) : Q :=
  ((celsius * (9 # 1)) / (5 # 1) + (32 # 1))%Q.

(** [(fahrenheit - 32) * 5/9] parses as [((fahrenheit - 32) * 5) / 9]. *)
Definition fahrenheitToCelsius (fahrenheit : Q) : Q :=
  (((fahrenheit - (32 # 1)) * (5 # 1)) / (9 # 1))%Q.

Definition msToMph (ms : Q) : Q := (ms * (2237 # 1000))%Q.
Definition msToKmh (ms : Q) : Q := (ms * (36 # 10))%Q.

(** [formatTemperature(temp, unit)]: [temp] is [null] or [undefined]
    ([None]) or a number. The template prints the rounded value in decimal,
    as the script does for magnitudes under 10^21. *)
Definition formatTemperature (temp : option Q) (unit : string) : string :=
  match temp with
  | None => "--"
  | Some t => pretty (Math_round t) +:+ "°" +:+ unit
  end.

(** The default of [unit]. *)
Definition default_unit : string := "C".

(** What [iconMap[iconCode] || fallback] evaluates to: an icon, or, for a
    name that every object inherits from [Object.prototype], the inherited
    property (a function or an object, not an icon). *)
Inductive icon_result :=
| Icon (s : string)
| InheritedProperty (name : string).

Definition iconMap : list (string * string) :=
  [("01d", "☀️");
   ("01n", "🌙");
   ("02d", "⛅");
   ("02n", "☁️");
   ("03d", "☁️");
   ("03n", "☁️");
   ("04d", "☁️");
   ("04n", "☁️");
   ("09d", "🌧️");
   ("09n", "🌧️");
   ("10d", "🌦️");
   ("10n", "🌧️");
   ("11d", "⛈️");
   ("11n", "⛈️");
   ("13d", "🌨️");
   ("13n", "🌨️");
   ("50d", "🌫️");
   ("50n", "🌫️")].

Definition fallback_icon : string := "🌤️".

Definition object_prototype_names : list string :=
  ["constructor"; "__defineGetter__"; "__defineSetter__"; "hasOwnProperty";
   "__lookupGetter__"; "__lookupSetter__"; "isPrototypeOf";
   "propertyIsEnumerable"; "toString"; "valueOf"; "__proto__";
   "toLocaleString"].

(** The own property of an object literal under a key. *)
Fixpoint own_property (key : string) (obj : list (string * string)) : option string :=
  match obj with
  | [] => None
  | (k, v) :: rest => if String.eqb k key then Some v else own_property key rest
  end.

Definition getWeatherIcon (iconCode : string) : icon_result :=
  match own_property iconCode iconMap with
  | Some icon => if String.eqb icon "" then Icon fallback_icon else Icon icon
  | None =>
      if existsb (String.eqb iconCode) object_prototype_names
      then InheritedProperty iconCode
      else Icon fallback_icon
  end.

(** [toUpperCase] on a character of the ASCII range. *)
Definition toUpperCase (c : ascii) : ascii :=
  let n := nat_of_ascii c in
  if (97 <=? n)%nat && (n <=? 122)%nat then ascii_of_nat (n - 32) else c.

(** [description.charAt(0).toUpperCase() + description.slice(1)], for a
    description that is empty or starts with a character of the ASCII
    range. *)
Definition getWeatherDescription (description : string) : string :=
  match description with
  | EmptyString => EmptyString
  | String c rest => String (toUpperCase c) rest
  end.

Definition starts_in_ascii (s : string) : bool :=
  match s with
  | EmptyString => true
  | String c _ => (nat_of_ascii c <? 128)%nat
  end.

End WeatherUtils.

(** ** JavaScript values, exceptions and effects *)

Module JS.

(** JSON payloads: what [response.json()] and [JSON.parse] produce and what
    the cache stores. *)
Inductive json :=
| JNull
| JBool (b : bool)
| JNum (q : Q)
| JStr (s : string)
| JArr (elems : list json)
| JObj (fields : list (string * json)).

(** A thrown [Error] object: its [name] and [message]. *)
Record error := Error { err_name : string; err_message : string }.

(** How a statement or an awaited promise completes. *)
Inductive completion (A : Type) :=
| Normal (a : A)
| Throw (e : error).
Arguments Normal {A} a.
Arguments Throw {A} e.

Definition is_throw {A} (c : completion A) : bool :=
  match c with Throw _ => true | Normal _ => false end.

(** Code that can throw and that acts on a world [W]. *)
Definition M (W A : Type) : Type := W -> completion A * W.

Definition ret {W A} (a : A) : M W A := fun w => (Normal a, w).

Definition throw {W A} (e : error) : M W A := fun w => (Throw e, w).

Definition bind {W A B} (m : M W A) (k : A -> M W B) : M W B :=
  fun w =>
    match m w with
    | (Normal a, w') => k a w'
    | (Throw e, w') => (Throw e, w')
    end.

(** [try { body } catch (error) { handler }] *)
Definition try_catch {W A} (body : M W A) (handler : error -> M W A) : M W A :=
  fun w =>
    match body w with
    | (Normal a, w') => (Normal a, w')
    | (Throw e, w') => handler e w'
    end.

(** Lifting of a completion that is already known ([await] of a settled
    promise). *)
Definition await {W A} (c : completion A) : M W A := fun w => (c, w).

(** The truthiness test [if (s)] on a value that is [null] or a string. *)
Definition truthy (s : option string) : bool :=
  match s with
  | None => false
  | Some str => negb (String.eqb str "")
  end.

End JS.

Declare Scope js_scope.
Delimit Scope js_scope with js.
Notation "'let!' x ':=' m 'in' k" := (JS.bind m (fun x => k))
  (at level 10, x name, m at level 100, k at level 200) : js_scope.

(** ** ChartUtils *)

Module ChartUtils.

Definition getAQIColor (aqi : Q) : string :=
  if Qle_bool aqi (50 # 1) then "#10b981"
  else if Qle_bool aqi (100 # 1) then "#f59e0b"
  else if Qle_bool aqi (150 # 1) then "#f97316"
  else if Qle_bool aqi (200 # 1) then "#ef4444"
  else if Qle_bool aqi (300 # 1) then "#8b5cf6"
  else "#7c2d12".

(** The axes both charts share, and the tooltip colours. *)
Definition axis (with_begin_at_zero : bool) : JS.json :=
  JS.JObj
    ((if with_begin_at_zero then [("beginAtZero", JS.JBool false)] else []) ++
     [("grid", JS.JObj [("color", JS.JStr "rgba(0, 0, 0, 0.1)")]);
      ("ticks", JS.JObj [("color", JS.JStr "#6b7280")])]).

Definition scales : JS.json :=
  JS.JObj [("y", axis true); ("x", axis false)].

Definition tooltip_colours : list (string * JS.json) :=
  [("backgroundColor", JS.JStr "rgba(0, 0, 0, 0.8)");
   ("titleColor", JS.JStr "#fff");
   ("bodyColor", JS.JStr "#fff");
   ("borderColor", JS.JStr "#3b82f6");
   ("borderWidth", JS.JNum (1 # 1))].

(** [defaultOptions] of [createTemperatureChart]. *)
Definition temperature_defaults : gmap string JS.json :=
  list_to_map
    [("responsive", JS.JBool true);
     ("maintainAspectRatio", JS.JBool false);
     ("plugins",
      JS.JObj [("legend", JS.JObj [("display", JS.JBool false)]);
               ("tooltip",
                JS.JObj ([("mode", JS.JStr "index"); ("intersect", JS.JBool false)]
                         ++ tooltip_colours))]);
     ("scales", scales);
     ("interaction",
      JS.JObj [("mode", JS.JStr "nearest"); ("axis", JS.JStr "x");
               ("intersect", JS.JBool false)])].

(** [defaultOptions] of [createComparisonChart]. *)
Definition comparison_defaults : gmap string JS.json :=
  list_to_map
    [("responsive", JS.JBool true);
     ("maintainAspectRatio", JS.JBool false);
     ("plugins",
      JS.JObj [("legend", JS.JObj [("display", JS.JBool false)]);
               ("tooltip", JS.JObj tooltip_colours)]);
     ("scales", scales)].

(** [{ ...defaults, ...options }]: the properties of [options] over those
    of [defaults]. *)
Definition spread (defaults options : gmap string JS.json) : gmap string JS.json :=
  options ∪ defaults.

(** The configuration handed to [new Chart(ctx, ...)]. *)
Record chart_config := ChartConfig {
  chart_type : string;
  chart_data : JS.json;
  chart_options : gmap string JS.json
}.

Definition createTemperatureChart (data : JS.json) (options : gmap string JS.json)
  : chart_config :=
  ChartConfig "line" data (spread temperature_defaults options).

Definition createComparisonChart (data : JS.json) (options : gmap string JS.json)
  : chart_config :=
  ChartConfig "bar" data (spread comparison_defaults options).

(** *** The AQI gauge *)

(** The text handed to [fillText]. *)
Inductive text :=
| Literal (s : string)
| NumberToString (q : Q).

(** An arc of the current path: centre, radius, and the two angles, kept
    as multiples of [Math.PI]. *)
Record arc_path := ArcPath {
  arc_x : Q;
  arc_y : Q;
  arc_radius : Q;
  arc_from_pi : Q;
  arc_to_pi : Q
}.

(** What the context has painted since the canvas was last cleared. *)
Inductive painted :=
| Stroked (a : arc_path) (style : string) (line_width : Q)
| FilledText (t : text) (x y : Q) (style font align : string).

(** The canvas and the drawing state of its 2D context. *)
Record context := Context {
  width : Q;
  height : Q;
  strokeStyle : string;
  lineWidth : Q;
  fillStyle : string;
  font : string;
  textAlign : string;
  path : list arc_path;
  paint : list painted
}.

Definition index_size_error : JS.error :=
  JS.Error "IndexSizeError" "The radius provided is negative.".

(** [ctx.clearRect(0, 0, ctx.canvas.width, ctx.canvas.height)] *)
Definition clearCanvas : JS.M context unit :=
  fun c => (JS.Normal tt,
            Context (width c) (height c) (strokeStyle c) (lineWidth c)
                    (fillStyle c) (font c) (textAlign c) (path c) []).

Definition beginPath : JS.M context unit :=
  fun c => (JS.Normal tt,
            Context (width c) (height c) (strokeStyle c) (lineWidth c)
                    (fillStyle c) (font c) (textAlign c) [] (paint c)).

(** [ctx.arc(x, y, radius, from, to)]: throws on a negative radius. *)
Definition arc (x y radius from_pi to_pi : Q) : JS.M context unit :=
  fun c =>
    if Qle_bool 0 radius then
      (JS.Normal tt,
       Context (width c) (height c) (strokeStyle c) (lineWidth c)
               (fillStyle c) (font c) (textAlign c)
               (path c ++ [ArcPath x y radius from_pi to_pi]) (paint c))
    else (JS.Throw index_size_error, c).

Definition set_strokeStyle (s : string) : JS.M context unit :=
  fun c => (JS.Normal tt,
            Context (width c) (height c) s (lineWidth c)
                    (fillStyle c) (font c) (textAlign c) (path c) (paint c)).

Definition set_lineWidth (w : Q) : JS.M context unit :=
  fun c => (JS.Normal tt,
            Context (width c) (height c) (strokeStyle c) w
                    (fillStyle c) (font c) (textAlign c) (path c) (paint c)).

Definition set_fillStyle (s : string) : JS.M context unit :=
  fun c => (JS.Normal tt,
            Context (width c) (height c) (strokeStyle c) (lineWidth c)
                    s (font c) (textAlign c) (path c) (paint c)).

Definition set_font (s : string) : JS.M context unit :=
  fun c => (JS.Normal tt,
            Context (width c) (height c) (strokeStyle c) (lineWidth c)
                    (fillStyle c) s (textAlign c) (path c) (paint c)).

Definition set_textAlign (s : string) : JS.M context unit :=
  fun c => (JS.Normal tt,
            Context (width c) (height c) (strokeStyle c) (lineWidth c)
                    (fillStyle c) (font c) s (path c) (paint c)).

(** [ctx.stroke()]: the current path, in the current style and width. *)
Definition stroke : JS.M context unit :=
  fun c => (JS.Normal tt,
            Context (width c) (height c) (strokeStyle c) (lineWidth c)
                    (fillStyle c) (font c) (textAlign c) (path c)
                    (paint c ++
                     List.map (fun a => Stroked a (strokeStyle c) (lineWidth c))
                              (path c))).

Definition fillText (t : text) (x y : Q) : JS.M context unit :=
  fun c => (JS.Normal tt,
            Context (width c) (height c) (strokeStyle c) (lineWidth c)
                    (fillStyle c) (font c) (textAlign c) (path c)
                    (paint c ++
                     [FilledText t x y (fillStyle c) (font c) (textAlign c)])).

(** [Math.min] *)
Definition Math_min (a b : Q) : Q := if Qle_bool a b then a else b.

Local Open Scope js_scope.

(** [createAQIGauge(ctx, value, maxValue)], for [maxValue] other than 0. *)
Definition createAQIGauge (value maxValue : Q) : JS.M context unit :=
  fun ctx =>
    let percentage := ((value / maxValue) * (100 # 1))%Q in
    let angle_pi := (percentage / (100 # 1))%Q in
    (let! _ := clearCanvas in
     let centerX := (width ctx / (2 # 1))%Q in
     let centerY := (height ctx / (2 # 1))%Q in
     let radius := (Math_min centerX centerY - (20 # 1))%Q in
     let! _ := beginPath in
     let! _ := arc centerX centerY radius 0 1 in
     let! _ := set_strokeStyle "#e5e7eb" in
     let! _ := set_lineWidth (20 # 1) in
     let! _ := stroke in
     let! _ := beginPath in
     let! _ := arc centerX centerY radius (- (1 # 2)) (- (1 # 2) + angle_pi) in
     let! _ := set_strokeStyle (getAQIColor value) in
     let! _ := set_lineWidth (20 # 1) in
     let! _ := stroke in
     let! _ := set_fillStyle "#1f2937" in
     let! _ := set_font "bold 24px Inter" in
     let! _ := set_textAlign "center" in
     let! _ := fillText (NumberToString value) centerX (centerY + (10 # 1)) in
     let! _ := set_fillStyle "#6b7280" in
     let! _ := set_font "14px Inter" in
     fillText (Literal "AQI") centerX (centerY + (40 # 1))) ctx.

(** The default of [maxValue]. *)
Definition default_maxValue : Q := 500 # 1.

(** A canvas of 200 by 120 on which nothing was drawn yet. *)
Definition blank_canvas : context :=
  Context (200 # 1) (120 # 1) "#000000" (1 # 1) "#000000" "10px sans-serif"
          "start" [] [].

End ChartUtils.

(** ** WeatherAPI *)

Module WeatherAPI.
Import JS.

(** The query part of a URL: a [URLSearchParams] object (left unserialised,
    values as given to the constructor) or a string spliced in as it is. *)
Inductive query :=
| Params (ps : list (string * json))
| RawQuery (name : string) (value : string)
| NoQuery.

Record request := Request {
  req_method : string;
  req_path : string;
  req_query : query;
  req_headers : list (string * string);
  req_body : option json
}.

(** A [Response]: its [ok] flag, its [status], and how [response.json()]
    settles. *)
Record response := Response {
  resp_ok : bool;
  resp_status : Z;
  resp_json : completion json
}.

(** The world of the API client: the network, which settles the n-th
    [fetch] of a session, the requests sent so far, and the console. *)
Record world := World {
  network : nat -> request -> completion response;
  fetched : list request;
  console : list (string * error)
}.

Definition fetch (req : request) : M world response :=
  fun w =>
    (network w (length (fetched w)) req,
     World (network w) (fetched w ++ [req]) (console w)).

Definition console_error (label : string) (e : error) : M world unit :=
  fun w => (Normal tt, World (network w) (fetched w) (console w ++ [(label, e)])).

Definition baseURL : string := "/api".

Definition GET (path : string) (q : query) : request :=
  Request "GET" (baseURL +:+ path) q [] None.

(** [throw new Error(`HTTP error! status: ${response.status}`)] *)
Definition http_error (status : Z) : error :=
  Error "Error" ("HTTP error! status: " +:+ pretty status).

(** The part every method shares after its request is built:
    [if (!response.ok) throw ...; return await response.json();] *)
Definition check_and_parse (resp : response) : M world json :=
  if negb (resp_ok resp) then throw (http_error (resp_status resp))
  else await (resp_json resp).

Local Open Scope js_scope.

Definition getCurrentWeather (city : string) (country : option string)
  : M world json :=
  try_catch
    (let params := [("city", JStr city)] in
     let params :=
       if truthy country
       then params ++ [("country", JStr (default "" country))]
       else params in
     let! resp := fetch (GET "/current-weather/" (Params params)) in
     check_and_parse resp)
    (fun error =>
       let! _ := console_error "Error fetching current weather:" error in throw error).

Definition getForecast (city : string) (days : json) : M world json :=
  try_catch
    (let params := [("city", JStr city); ("days", days)] in
     let! resp := fetch (GET "/weather-forecast/" (Params params)) in
     check_and_parse resp)
    (fun error => let! _ := console_error "Error fetching forecast:" error in throw error).

(** The default of [days]. *)
Definition default_days : json := JNum (5 # 1).

Definition getHistoricalWeather (city : string) (startDate endDate : option string)
  : M world json :=
  try_catch
    (let params := [("city", JStr city)] in
     let params :=
       if truthy startDate
       then params ++ [("start_date", JStr (default "" startDate))]
       else params in
     let params :=
       if truthy endDate
       then params ++ [("end_date", JStr (default "" endDate))]
       else params in
     let! resp := fetch (GET "/historical-weather/" (Params params)) in
     check_and_parse resp)
    (fun error =>
       let! _ := console_error "Error fetching historical weather:" error in throw error).

Definition getAlerts (city : string) : M world json :=
  try_catch
    (let params := [("city", JStr city)] in
     let! resp := fetch (GET "/weather-alerts/" (Params params)) in
     check_and_parse resp)
    (fun error => let! _ := console_error "Error fetching alerts:" error in throw error).

(** [cities.join(',')] *)
Fixpoint join (sep : string) (l : list string) : string :=
  match l with
  | [] => ""
  | [x] => x
  | x :: rest => x +:+ sep +:+ join sep rest
  end.

Definition compareCities (cities : list string) : M world json :=
  try_catch
    (let citiesStr := join "," cities in
     let! resp := fetch (GET "/compare-cities/" (RawQuery "cities" citiesStr)) in
     check_and_parse resp)
    (fun error => let! _ := console_error "Error comparing cities:" error in throw error).

Definition getAirQuality (city : string) (country : option string)
  : M world json :=
  try_catch
    (let params := [("city", JStr city)] in
     let params :=
       if truthy country
       then params ++ [("country", JStr (default "" country))]
       else params in
     let! resp := fetch (GET "/air-quality/" (Params params)) in
     check_and_parse resp)
    (fun error => let! _ := console_error "Error fetching air quality:" error in throw error).

Definition searchCity (query : string) : M world json :=
  try_catch
    (let! resp := fetch (Request "POST" (baseURL +:+ "/search-city/") NoQuery
                      [("Content-Type", "application/json")]
                      (Some (JObj [("query", JStr query)]))) in
     check_and_parse resp)
    (fun error => let! _ := console_error "Error searching city:" error in throw error).

(** The seven methods of the client with their arguments. *)
Inductive api_call :=
| CallCurrentWeather (city : string) (country : option string)
| CallForecast (city : string) (days : json)
| CallHistoricalWeather (city : string) (startDate endDate : option string)
| CallAlerts (city : string)
| CallCompareCities (cities : list string)
| CallAirQuality (city : string) (country : option string)
| CallSearchCity (query : string).

Definition invoke (c : api_call) : M world json :=
  match c with
  | CallCurrentWeather city country => getCurrentWeather city country
  | CallForecast city days => getForecast city days
  | CallHistoricalWeather city s e => getHistoricalWeather city s e
  | CallAlerts city => getAlerts city
  | CallCompareCities cities => compareCities cities
  | CallAirQuality city country => getAirQuality city country
  | CallSearchCity q => searchCity q
  end.

(** The request a call sends. *)
Definition request_of (c : api_call) : request :=
  match c with
  | CallCurrentWeather city country =>
      GET "/current-weather/"
          (Params (("city", JStr city) ::
                   if truthy country then [("country", JStr (default "" country))]
                   else []))
  | CallForecast city days =>
      GET "/weather-forecast/" (Params [("city", JStr city); ("days", days)])
  | CallHistoricalWeather city s e =>
      GET "/historical-weather/"
          (Params (("city", JStr city) ::
                   (if truthy s then [("start_date", JStr (default "" s))] else []) ++
                   (if truthy e then [("end_date", JStr (default "" e))] else [])))
  | CallAlerts city => GET "/weather-alerts/" (Params [("city", JStr city)])
  | CallCompareCities cities =>
      GET "/compare-cities/" (RawQuery "cities" (join "," cities))
  | CallAirQuality city country =>
      GET "/air-quality/"
          (Params (("city", JStr city) ::
                   if truthy country then [("country", JStr (default "" country))]
                   else []))
  | CallSearchCity q =>
      Request "POST" (baseURL +:+ "/search-city/") NoQuery
              [("Content-Type", "application/json")]
              (Some (JObj [("query", JStr q)]))
  end.

(** The label under which a call logs its failure. *)
Definition label_of (c : api_call) : string :=
  match c with
  | CallCurrentWeather _ _ => "Error fetching current weather:"
  | CallForecast _ _ => "Error fetching forecast:"
  | CallHistoricalWeather _ _ _ => "Error fetching historical weather:"
  | CallAlerts _ => "Error fetching alerts:"
  | CallCompareCities _ => "Error comparing cities:"
  | CallAirQuality _ _ => "Error fetching air quality:"
  | CallSearchCity _ => "Error searching city:"
  end.

(** The reading of "the request fails" that the error-handling design
    gives: a transport failure ([fetch] rejects) or a protocol failure (the
    status is not a success). *)
Definition request_fails (reply : completion response) : bool :=
  match reply with
  | Throw _ => true
  | Normal resp => negb (resp_ok resp)
  end.

(** The response is a success but its body cannot be read as JSON. *)
Definition body_fails (reply : completion response) : bool :=
  match reply with
  | Throw _ => false
  | Normal resp => resp_ok resp && is_throw (resp_json resp)
  end.

(** A server that answers every request with status 200 and an HTML page,
    so that [response.json()] rejects. *)
Definition html_reply : response :=
  Response true 200 (Throw (Error "SyntaxError" "Unexpected token < in JSON")).

Definition html_world : world := World (fun _ _ => Normal html_reply) [] [].

End WeatherAPI.

(** ** Timers and the event loop *)

Module Timers.

(** A pending [setTimeout] task: its handle, its deadline and its callback. *)
Record timer (Cb : Type) := Timer {
  timer_id : nat;
  timer_due : Z;
  timer_cb : Cb
}.
Arguments Timer {Cb} _ _ _.
Arguments timer_id {Cb} _.
Arguments timer_due {Cb} _.
Arguments timer_cb {Cb} _.

(** The list of active timers of the window, in the order they were set,
    and the next handle to hand out. *)
Record queue (Cb : Type) := Queue {
  next_id : nat;
  pending : list (timer Cb)
}.
Arguments Queue {Cb} _ _.
Arguments next_id {Cb} _.
Arguments pending {Cb} _.

Definition empty_queue {Cb} : queue Cb := Queue 1%nat [].

(** [setTimeout(cb, delay)] at time [now]: a negative delay counts as 0. *)
Definition setTimeout {Cb} (now : Z) (cb : Cb) (delay : Z) (q : queue Cb)
  : nat * queue Cb :=
  (next_id q,
   Queue (S (next_id q)) (pending q ++ [Timer (next_id q) (now + Z.max 0 delay) cb])).

Definition remove_timer {Cb} (id : nat) (l : list (timer Cb)) : list (timer Cb) :=
  List.filter (fun t => negb (Nat.eqb (timer_id t) id)) l.

(** [clearTimeout(handle)]: [undefined] and handles of timers that already
    ran or were cleared do nothing. *)
Definition clearTimeout {Cb} (handle : option nat) (q : queue Cb) : queue Cb :=
  match handle with
  | None => q
  | Some id => Queue (next_id q) (remove_timer id (pending q))
  end.

(** The timer that runs next: the earliest deadline, and among equal
    deadlines the one set first. *)
Fixpoint earliest {Cb} (l : list (timer Cb)) : option (timer Cb) :=
  match l with
  | [] => None
  | t :: rest =>
      match earliest rest with
      | Some t' => if timer_due t' <? timer_due t then Some t' else Some t
      | None => Some t
      end
  end.

(** When a timer's deadline and an outside event fall on the same
    millisecond, either may run first. *)
Inductive tie_policy := TimersFirst | EventsFirst.

(** Is a timer with deadline [due] run before the event at time [t]? *)
Definition runs_before (p : tie_policy) (t due : Z) : bool :=
  match p with
  | TimersFirst => due <=? t
  | EventsFirst => due <? t
  end.

Section Loop.
Context {Cb State : Type}.
Variable get_timers : State -> queue Cb.
Variable set_timers : queue Cb -> State -> State.
(** [run_cb now cb s]: the callback [cb] runs at time [now]. *)
Variable run_cb : Z -> Cb -> State -> State.

(** A timer runs: it leaves the list of active timers, then its callback
    runs. Timers are taken to be punctual: the callback runs at the
    timer's deadline. *)
Definition fire (t : timer Cb) (s : State) : State :=
  let q := get_timers s in
  run_cb (timer_due t) (timer_cb t)
         (set_timers (Queue (next_id q) (remove_timer (timer_id t) (pending q))) s).

(** Run the timers whose deadline satisfies [ready], earliest first, at
    most [fuel] of them. *)
Fixpoint drain (fuel : nat) (ready : Z -> bool) (s : State) : State :=
  match fuel with
  | O => s
  | S n =>
      match earliest (pending (get_timers s)) with
      | Some t => if ready (timer_due t) then drain n ready (fire t s) else s
      | None => s
      end
  end.

(** The event loop up to an event at time [t]. *)
Definition drain_until (p : tie_policy) (t : Z) (s : State) : State :=
  drain (length (pending (get_timers s))) (runs_before p t) s.

(** The event loop after the last event: every pending timer runs. *)
Definition drain_all (s : State) : State :=
  drain (length (pending (get_timers s))) (fun _ => true) s.

(** A session: the [events] (time and argument of each call of the wrapped
    function, in the order they happen) with the timers that run between
    them, then the timers that are left. *)
Fixpoint session {A} (call : Z -> A -> State -> State) (p : tie_policy)
  (events : list (Z * A)) (s : State) : State :=
  match events with
  | [] => drain_all s
  | (t, a) :: rest => session call p rest (call t a (drain_until p t s))
  end.

End Loop.

(** A burst: every event comes less than [window] after the one before. *)
Fixpoint burst {A} (window : Z) (events : list (Z * A)) : Prop :=
  match events with
  | [] => True
  | (t, _) :: rest =>
      match rest with
      | [] => True
      | (t', _) :: _ => t <= t' < t + window /\ burst window rest
      end
  end.

End Timers.

(** ** UIUtils: debounce and throttle *)

Module UIUtils.
Import Timers.

(** *** debounce *)

Section Debounce.
(** The arguments of a call; [func] is observed through the calls it
    receives. *)
Context {A : Type}.
Variable wait : Z.

(** The only callback debounce schedules: the closure [later] over [args]. *)
Inductive debounce_cb := Later (args : A).

(** What the returned closure captures ([timeout]), the window's timers,
    and the calls [func] has received with their times. *)
Record debounce_state := DebounceState {
  timeout : option nat;
  d_timers : queue debounce_cb;
  d_calls : list (Z * A)
}.

(** [debounce(func, wait)]: [let timeout;] *)
Definition debounce : debounce_state := DebounceState None empty_queue [].

(** [executedFunction(...args)] called at time [now]. *)
Definition executedFunction (now : Z) (args : A) (s : debounce_state)
  : debounce_state :=
  let q := clearTimeout (timeout s) (d_timers s) in
  let '(id, q') := setTimeout now (Later args) wait q in
  DebounceState (Some id) q' (d_calls s).

(** [later()] run by the event loop at time [now]. *)
Definition later (now : Z) (cb : debounce_cb) (s : debounce_state)
  : debounce_state :=
  match cb with
  | Later args =>
      DebounceState (timeout s) (clearTimeout (timeout s) (d_timers s))
                    (d_calls s ++ [(now, args)])
  end.

Definition d_set_timers (q : queue debounce_cb) (s : debounce_state)
  : debounce_state :=
  DebounceState (timeout s) q (d_calls s).

Definition debounce_session (p : tie_policy) (events : list (Z * A))
  : debounce_state :=
  session d_timers d_set_timers later executedFunction p events debounce.

(** The states the closure is left in: no timer pending, or the one timer
    that [timeout] holds. *)
Definition d_idle (s : debounce_state) : Prop :=
  pending (d_timers s) = [].

Definition d_armed (due : Z) (args : A) (s : debounce_state) : Prop :=
  exists id, timeout s = Some id /\
             pending (d_timers s) = [Timer id due (Later args)].

(** From the specification's words: only the last invocation within a
    [wait] window runs, [wait] after it was made and with its arguments; an
    invocation is superseded when the next one arrives before its timer
    runs. *)
Fixpoint debounce_spec (p : tie_policy) (events : list (Z * A)) : list (Z * A) :=
  match events with
  | [] => []
  | (t, a) :: rest =>
      match rest with
      | [] => [(t + wait, a)]
      | (t', _) :: _ =>
          if runs_before p t' (t + wait)
          then (t + wait, a) :: debounce_spec p rest
          else debounce_spec p rest
      end
  end.

(** The call an invocation of the debounced function leads to, if it is
    not superseded. *)
Definition delayed (e : Z * A) : Z * A := (e.1 + wait, e.2).

End Debounce.

(** *** throttle *)

Section Throttle.
Context {A : Type}.
Variable limit : Z.

(** The only callback throttle schedules: [() => inThrottle = false]. *)
Inductive throttle_cb := Release.

Record throttle_state := ThrottleState {
  inThrottle : bool;
  t_timers : queue throttle_cb;
  t_calls : list (Z * A)
}.

(** [throttle(func, limit)]: [let inThrottle;], falsy until first set. *)
Definition throttle : throttle_state := ThrottleState false empty_queue [].

(** The returned function called at time [now] with [args]. *)
Definition throttled (now : Z) (args : A) (s : throttle_state) : throttle_state :=
  if negb (inThrottle s) then
    let calls := t_calls s ++ [(now, args)] in
    let '(_, q) := setTimeout now Release limit (t_timers s) in
    ThrottleState true q calls
  else s.

Definition release (now : Z) (cb : throttle_cb) (s : throttle_state)
  : throttle_state :=
  match cb with
  | Release => ThrottleState false (t_timers s) (t_calls s)
  end.

Definition t_set_timers (q : queue throttle_cb) (s : throttle_state)
  : throttle_state :=
  ThrottleState (inThrottle s) q (t_calls s).

Definition throttle_session (p : tie_policy) (events : list (Z * A))
  : throttle_state :=
  session t_timers t_set_timers release throttled p events throttle.

(** The states the closure is left in: open with no timer pending, or
    cooling down until the one pending timer runs. *)
Definition t_open (s : throttle_state) : Prop :=
  inThrottle s = false /\ pending (t_timers s) = [].

Definition t_cooling (until : Z) (s : throttle_state) : Prop :=
  inThrottle s = true /\
  exists id, pending (t_timers s) = [Timer id until Release].

(** From the specification's words: the first call goes through at once;
    calls are ignored until [limit] has elapsed since the last call that
    went through; the next call after that goes through at once and
    restarts the cooldown. [cooldown] is the end of the running cooldown. *)
Fixpoint throttle_spec (p : tie_policy) (cooldown : option Z)
  (events : list (Z * A)) : list (Z * A) :=
  match events with
  | [] => []
  | (t, a) :: rest =>
      match cooldown with
      | None => (t, a) :: throttle_spec p (Some (t + limit)) rest
      | Some c =>
          if runs_before p t c
          then (t, a) :: throttle_spec p (Some (t + limit)) rest
          else throttle_spec p cooldown rest
      end
  end.

End Throttle.

(** *** showToast *)

Section Toast.

(** The keys of the [colors] table; a [type] outside them is not
    covered. *)
Inductive toast_type := ToastInfo | ToastSuccess | ToastWarning | ToastError.

Definition colors (type : toast_type) : string :=
  match type with
  | ToastInfo => "bg-blue-500"
  | ToastSuccess => "bg-green-500"
  | ToastWarning => "bg-yellow-500"
  | ToastError => "bg-red-500"
  end.

(** The defaults of [type] and [duration]. *)
Definition default_toast_type : toast_type := ToastInfo.
Definition default_duration : Z := 3000.

(** A [div]: its class list and its text. *)
Record element := Element {
  classList : list string;
  textContent : string
}.

(** The three callbacks a toast schedules: the slide in, the slide out
    (which schedules the removal), and the removal. *)
Inductive toast_cb :=
| AnimateIn (el : nat)
| SlideOut (el : nat)
| Detach (el : nat).

(** The document: the elements created so far, by handle; the children of
    [document.body], in order; the window's timers; and the exceptions that
    no handler caught. *)
Record page := Page {
  elements : gmap nat element;
  body : list nat;
  next_element : nat;
  page_timers : queue toast_cb;
  uncaught : list string
}.

(** [classList.add(token)] and [classList.remove(token)]. *)
Definition token_add (token : string) (l : list string) : list string :=
  if existsb (String.eqb token) l then l else l ++ [token].

Definition token_remove (token : string) (l : list string) : list string :=
  List.filter (fun tok => negb (String.eqb tok token)) l.

Definition has_token (token : string) (l : list string) : bool :=
  existsb (String.eqb token) l.

Definition update_classes (f : list string -> list string) (e : element) : element :=
  Element (f (classList e)) (textContent e).

(** The tokens of the template string assigned to [toast.className]. *)
Definition toast_classes (type : toast_type) : list string :=
  ["fixed"; "top-4"; "right-4"; colors type; "text-white"; "px-6"; "py-3";
   "rounded-lg"; "shadow-lg"; "z-50"; "transform"; "transition-all";
   "duration-300"; "translate-x-full"].

(** [showToast(message, type, duration)] called at time [now]. *)
Definition showToast (now : Z) (message : string) (type : toast_type)
  (duration : Z) (pg : page) : page :=
  let toast := next_element pg in
  let '(_, q1) := setTimeout now (AnimateIn toast) 100 (page_timers pg) in
  let '(_, q2) := setTimeout now (SlideOut toast) duration q1 in
  Page (<[toast := Element (toast_classes type) message]> (elements pg))
       (body pg ++ [toast])
       (S toast)
       q2
       (uncaught pg).

(** [document.body.removeChild(el)]: throws when [el] is not a child. *)
Definition removeChild (el : nat) (pg : page) : page :=
  if existsb (Nat.eqb el) (body pg)
  then Page (elements pg)
            (List.filter (fun child => negb (Nat.eqb child el)) (body pg))
            (next_element pg) (page_timers pg) (uncaught pg)
  else Page (elements pg) (body pg) (next_element pg) (page_timers pg)
            (uncaught pg ++ ["NotFoundError"]).

(** A callback of a toast run by the event loop at time [now]. *)
Definition toast_run (now : Z) (cb : toast_cb) (pg : page) : page :=
  match cb with
  | AnimateIn el =>
      Page (alter (update_classes (token_remove "translate-x-full")) el (elements pg))
           (body pg) (next_element pg) (page_timers pg) (uncaught pg)
  | SlideOut el =>
      let '(_, q) := setTimeout now (Detach el) 300 (page_timers pg) in
      Page (alter (update_classes (token_add "translate-x-full")) el (elements pg))
           (body pg) (next_element pg) q (uncaught pg)
  | Detach el => removeChild el pg
  end.

Definition set_page_timers (q : queue toast_cb) (pg : page) : page :=
  Page (elements pg) (body pg) (next_element pg) q (uncaught pg).

(** The page as it is at time [t]: every timer due by then has run. A
    toast runs three timers. *)
Definition page_at (toasts : nat) (t : Z) (pg : page) : page :=
  drain page_timers set_page_timers toast_run (3 * toasts)
        (runs_before TimersFirst t) pg.

(** The toast is in the document and slid out of view, or slid in. *)
Definition off_screen (el : nat) (pg : page) : Prop :=
  el ∈ body pg /\
  exists e, elements pg !! el = Some e /\
            has_token "translate-x-full" (classList e) = true.

Definition on_screen (el : nat) (pg : page) : Prop :=
  el ∈ body pg /\
  exists e, elements pg !! el = Some e /\
            has_token "translate-x-full" (classList e) = false.

(** A page with nothing in it. *)
Definition empty_page : page := Page ∅ [] 0 empty_queue [].

End Toast.

End UIUtils.

(** ** The search box *)

Module Search.
Import JS.
Local Open Scope js_scope.

(** The world of the search box: the API client's world and what
    [console.log('Search results:', ...)] printed. *)
Record world := World {
  api : WeatherAPI.world;
  results : list json
}.







End Search.

(** ** StorageUtils *)

Module StorageUtils.
Import JS.
Local Open Scope js_scope.

(** The browser's side of the helper: the [localStorage] object, whose
    every method may throw (quota exceeded, access denied), and the [JSON]
    object, whose [stringify] throws on values it cannot serialise and
    whose [parse] throws on malformed text. *)
Record backend (Store V : Type) := Backend {
  setItem : string -> string -> Store -> completion unit * Store;
  getItem : string -> Store -> completion (option string) * Store;
  removeItem : string -> Store -> completion unit * Store;
  clearItems : Store -> completion unit * Store;
  JSON_stringify : V -> completion string;
  JSON_parse : string -> completion V
}.
Arguments setItem {Store V} _ _ _ _.
Arguments getItem {Store V} _ _ _.
Arguments removeItem {Store V} _ _ _.
Arguments clearItems {Store V} _ _.
Arguments JSON_stringify {Store V} _ _.
Arguments JSON_parse {Store V} _ _.

Section Ops.
Context {Store V : Type}.
Variable B : backend Store V.

(** The world of the helper: the store and the console. *)
Record world := World {
  store : Store;
  console : list (string * error)
}.

Definition lift_store {X} (op : Store -> completion X * Store) : M world X :=
  fun w => let '(c, st) := op (store w) in (c, World st (console w)).

Definition console_error (label : string) (e : error) : M world unit :=
  fun w => (Normal tt, World (store w) (console w ++ [(label, e)])).

Definition save (key : string) (value : V) : M world unit :=
  try_catch
    (let! text := await (JSON_stringify B value) in
     lift_store (setItem B key text))
    (fun error => console_error "Error saving to localStorage:" error).

(** [item ? JSON.parse(item) : defaultValue]: [null] and the empty string
    are falsy. *)
Definition load (key : string) (defaultValue : V) : M world V :=
  try_catch
    (let! item := lift_store (getItem B key) in
     if truthy item then await (JSON_parse B (default "" item))
     else ret defaultValue)
    (fun error =>
       let! _ := console_error "Error loading from localStorage:" error in
       ret defaultValue).

Definition remove (key : string) : M world unit :=
  try_catch
    (lift_store (removeItem B key))
    (fun error => console_error "Error removing from localStorage:" error).

Definition clear : M world unit :=
  try_catch
    (lift_store (clearItems B))
    (fun error => console_error "Error clearing localStorage:" error).

End Ops.
Arguments world : clear implicits.
Arguments World {Store} _ _.
Arguments store {Store} _.
Arguments console {Store} _.

(** A concrete browser to run the helper on: a store with a quota on the
    number of keys, that can be switched to deny every access, and a [JSON]
    object restricted to the literals [null], [true] and [false]. *)
Record quota_store := QuotaStore {
  items : gmap string string;
  quota : nat;
  denied : bool
}.

Definition security_error : error :=
  Error "SecurityError" "The operation is insecure.".
Definition quota_error : error :=
  Error "QuotaExceededError" "The quota has been exceeded.".
Definition syntax_error : error :=
  Error "SyntaxError" "Unexpected token in JSON".
Definition type_error : error :=
  Error "TypeError" "Converting circular structure to JSON".

Definition guarded {X} (st : quota_store)
  (k : completion X * quota_store) : completion X * quota_store :=
  if denied st then (Throw security_error, st) else k.

Definition literal_backend : backend quota_store json :=
  Backend quota_store json
    (fun key text st =>
       guarded st
         (if bool_decide (is_Some (items st !! key)) || (size (items st) <? quota st)%nat
          then (Normal tt, QuotaStore (<[key := text]> (items st)) (quota st) false)
          else (Throw quota_error, st)))
    (fun key st => guarded st (Normal (items st !! key), st))
    (fun key st =>
       guarded st (Normal tt, QuotaStore (delete key (items st)) (quota st) false))
    (fun st => guarded st (Normal tt, QuotaStore ∅ (quota st) false))
    (fun v =>
       match v with
       | JNull => Normal "null"
       | JBool true => Normal "true"
       | JBool false => Normal "false"
       | _ => Throw type_error
       end)
    (fun text =>
       if String.eqb text "null" then Normal JNull
       else if String.eqb text "true" then Normal (JBool true)
       else if String.eqb text "false" then Normal (JBool false)
       else Throw syntax_error).

(** Stores to run the helper on: one where the theme was written as a bare
    word (not JSON), and one that denies access. *)
Definition corrupt_store : world quota_store :=
  World (QuotaStore {[ "theme" := "dark" ]} 10 false) [].

Definition denied_store : world quota_store :=
  World (QuotaStore ∅ 0 true) [].

End StorageUtils.

(** ** WeatherCache *)

Module WeatherCache.
Import JS.

(** A cache entry: [{ data, timestamp }]. *)
Record item := Item {
  data : json;
  timestamp : Z
}.

(** The [WeatherCache] object: its [Map] and its [maxAge]. *)
Record t := Cache {
  cache : gmap string item;
  maxAge : Z
}.

(** The object as the script creates it: [maxAge] is 10 minutes. *)
Definition initial : t := Cache ∅ (10 * 60 * 1000).

(** [Date.now() - item.timestamp > this.maxAge] *)
Definition expired (now : Z) (max_age : Z) (it : item) : bool :=
  now - timestamp it >? max_age.

(** [get(key)] at time [now]: the value returned ([JNull] for [null]) and
    the cache afterwards. *)
Definition get (now : Z) (key : string) (c : t) : json * t :=
  match cache c !! key with
  | None => (JNull, c)
  | Some it =>
      if expired now (maxAge c) it
      then (JNull, Cache (delete key (cache c)) (maxAge c))
      else (data it, c)
  end.

(** [set(key, data)] at time [now]. *)
Definition set (now : Z) (key : string) (d : json) (c : t) : t :=
  Cache (<[key := Item d now]> (cache c)) (maxAge c).

(** The body of the loop of [clearExpired], run over [entries] on the live
    map: deleting the entry under the cursor does not disturb a [Map]
    iteration. *)
Definition sweep (now max_age : Z) (entries : list (string * item))
  (m : gmap string item) : gmap string item :=
  foldl (fun acc '(key, it) => if expired now max_age it then delete key acc else acc)
        m entries.

(** [clearExpired()] at time [now]. *)
Definition clearExpired (now : Z) (c : t) : t :=
  Cache (sweep now (maxAge c) (map_to_list (cache c)) (cache c)) (maxAge c).

(** [clear()] *)
Definition clear (c : t) : t := Cache ∅ (maxAge c).

(** The states the object goes through: nothing but its four methods
    touches it. *)
Inductive reachable : t -> Prop :=
| reach_initial : reachable initial
| reach_set now k v c : reachable c -> reachable (set now k v c)
| reach_get now k c : reachable c -> reachable (snd (get now k c))
| reach_clearExpired now c : reachable c -> reachable (clearExpired now c)
| reach_clear c : reachable c -> reachable (clear c).

(** A cache to run the operations on: an entry set at time 0 and one set
    at time 500000. *)
Definition sample_cache : t :=
  set 500000 "paris" (JStr "sunny") (set 0 "oslo" (JStr "snow") initial).

(** What the page does to the cache: the four methods. The script sweeps
    from a repeating timer, [setInterval(() => WeatherCache.clearExpired(),
    5 * 60 * 1000)]. *)
Inductive op :=
| OpGet (key : string)
| OpSet (key : string) (d : json)
| OpClearExpired
| OpClear.

Definition sweep_interval : Z := 5 * 60 * 1000.

(** One operation at time [now]. *)
Definition step (now : Z) (o : op) (c : t) : t :=
  match o with
  | OpGet key => snd (get now key c)
  | OpSet key d => set now key d c
  | OpClearExpired => clearExpired now c
  | OpClear => clear c
  end.

(** A history: operations with the time each happens at, oldest first. *)
Definition run (history : list (Z * op)) (c : t) : t :=
  foldl (fun acc '(now, o) => step now o acc) c history.

(** The clock never goes back along a history. *)
Definition chronological (history : list (Z * op)) : Prop :=
  Sorted Z.le (history.*1).

(** Every timestamp in the cache is at least [lo]. *)
Definition stamped_from (lo : Z) (c : t) : Prop :=
  forall k it, cache c !! k = Some it -> lo <= timestamp it.

End WeatherCache.

(** * Properties *)

(** Closed comparisons of rational constants. *)
Ltac q_decide :=
  first [done | vm_compute; first [reflexivity | discriminate | intro; discriminate]].

Section WeatherUtilsFacts.
Import WeatherUtils.

Lemma Qle_bool_true (x y : Q) : (x <= y)%Q -> Qle_bool x y = true.
Proof. intros H. by apply Qle_bool_iff. Qed.

Lemma Qle_bool_false (x y : Q) : (y < x)%Q -> Qle_bool x y = false.
Proof.
  intros H. destruct (Qle_bool x y) eqn:E; [|done].
  apply Qle_bool_iff in E. exfalso. by apply (Qlt_not_le y x).
Qed.

Lemma Math_round_mono (x y : Q) : (x <= y)%Q -> Math_round x <= Math_round y.
Proof.
  intros H. unfold Math_round. apply Qfloor_resp_le.
  apply Qplus_le_compat; [done | apply Qle_refl].
Qed.

Lemma windIndex_round_range (d : Q) :
  (0 <= d)%Q -> (d <= 360 # 1)%Q -> 0 <= Math_round (d / (45 # 2)) <= 16.
Proof.
  intros H0 H1. split.
  - change 0 with (Math_round 0). apply Math_round_mono.
    apply Qle_shift_div_l; [done|]. by rewrite Qmult_0_l.
  - change 16 with (Math_round (16 # 1)). apply Math_round_mono.
    apply Qle_shift_div_r; [done|]. by eapply Qle_trans; [exact H1|].
Qed.

(** [Math.round] pins down its result from a half-open unit interval. *)
Lemma Math_round_eq (x : Q) (n : Z) :
  (inject_Z n - (1 # 2) <= x)%Q -> (x < inject_Z n + (1 # 2))%Q -> Math_round x = n.
Proof.
  intros Hlo Hhi. unfold Math_round.
  pose proof (Qfloor_le (x + (1 # 2))) as Hf1.
  pose proof (Qlt_floor (x + (1 # 2))) as Hf2.
  assert (Hn1 : (inject_Z n <= x + (1 # 2))%Q).
  { apply (Qplus_le_l _ _ (- (1 # 2))%Q). ring_simplify.
    ring_simplify in Hlo. exact Hlo. }
  assert (Hn2 : (x + (1 # 2) < inject_Z (n + 1))%Q).
  { rewrite inject_Z_plus. apply (Qplus_lt_l _ _ (- (1 # 2))%Q). ring_simplify.
    ring_simplify in Hhi. exact Hhi. }
  assert (Ha : (inject_Z (Qfloor (x + (1 # 2))) < inject_Z (n + 1))%Q)
    by (eapply Qle_lt_trans; eauto).
  assert (Hb : (inject_Z n < inject_Z (Qfloor (x + (1 # 2)) + 1))%Q)
    by (eapply Qle_lt_trans; eauto).
  rewrite <- Zlt_Qlt in Ha, Hb. lia.
Qed.

(** [Math.round] returns the integer nearest to its argument, the upper
    one when two are equally near. *)
Lemma Math_round_nearest (x : Q) :
  (inject_Z (Math_round x) - (1 # 2) <= x)%Q /\
  (x < inject_Z (Math_round x) + (1 # 2))%Q.
Proof.
  unfold Math_round.
  pose proof (Qfloor_le (x + (1 # 2))) as Hlo.
  pose proof (Qlt_floor (x + (1 # 2))) as Hhi.
  rewrite inject_Z_plus in Hhi. split.
  - apply (Qplus_le_l _ _ (1 # 2)%Q). ring_simplify.
    ring_simplify in Hlo. exact Hlo.
  - apply (Qplus_lt_l _ _ (1 # 2)%Q).
    eapply Qlt_le_trans; [exact Hhi|].
    ring_simplify. apply Qle_refl.
Qed.

Lemma array_get_in_range {A} (arr : list A) (i : Z) :
  0 <= i < Z.of_nat (length arr) -> exists x, array_get arr i = Some x.
Proof.
  intros [Hlo Hhi]. unfold array_get.
  destruct (i <? 0) eqn:E; [lia|].
  destruct (arr !! Z.to_nat i) as [x|] eqn:El; [by exists x|].
  apply lookup_ge_None in El. lia.
Qed.

(** C5: [getAQILevel] maps every input in 0-50 to "Good", every input in
    51-100 to "Moderate", every input in 151-200 to "Unhealthy" and 501 to
    "Hazardous"; every value above the last boundary (300) falls in the
    worst bucket. *)
Theorem getAQILevel_buckets :
  (forall aqi : Q, (0 <= aqi)%Q -> (aqi <= 50 # 1)%Q ->
     level (getAQILevel aqi) = "Good") /\
  (forall aqi : Q, (51 # 1 <= aqi)%Q -> (aqi <= 100 # 1)%Q ->
     level (getAQILevel aqi) = "Moderate") /\
  (forall aqi : Q, (151 # 1 <= aqi)%Q -> (aqi <= 200 # 1)%Q ->
     level (getAQILevel aqi) = "Unhealthy") /\
  level (getAQILevel (501 # 1)) = "Hazardous" /\
  (forall aqi : Q, (300 # 1 < aqi)%Q -> level (getAQILevel aqi) = "Hazardous").
Proof.
  repeat split.
  - intros aqi _ H. unfold getAQILevel. by rewrite (Qle_bool_true _ _ H).
  - intros aqi Hlo H. unfold getAQILevel.
    rewrite Qle_bool_false by (eapply Qlt_le_trans; [|exact Hlo]; done).
    by rewrite (Qle_bool_true _ _ H).
  - intros aqi Hlo H. unfold getAQILevel.
    rewrite !Qle_bool_false by (eapply Qlt_le_trans; [|exact Hlo]; done).
    by rewrite (Qle_bool_true _ _ H).
  - intros aqi Hlo. unfold getAQILevel.
    by rewrite !Qle_bool_false by (eapply Qle_lt_trans; [|exact Hlo]; done).
Qed.

Lemma getAQILevel_buckets_witness :
  level (getAQILevel (25 # 1)) = "Good" /\
  level (getAQILevel (151 # 2)) = "Moderate" /\
  level (getAQILevel (175 # 1)) = "Unhealthy" /\
  level (getAQILevel (1000 # 1)) = "Hazardous".
Proof.
  destruct getAQILevel_buckets as (Hgood & Hmoderate & Hunhealthy & _ & Hworst).
  split; [apply Hgood; q_decide|].
  split; [apply Hmoderate; q_decide|].
  split; [apply Hunhealthy; q_decide|].
  apply Hworst; q_decide.
Defined.

(** C6: [getWindDirection] maps 0 degrees to "N", 90 to "E" and 359 to "N";
    the sector index is [degrees / 22.5] rounded to the nearest integer
    (at most one half away from it), modulo 16, so every input from 348.75 up to (not including) 371.25
    rounds to 16 and wraps to the first sector. *)
Theorem getWindDirection_examples :
  getWindDirection 0 = Some "N" /\
  getWindDirection (90 # 1) = Some "E" /\
  getWindDirection (359 # 1) = Some "N" /\
  (forall d : Q,
     let r := Math_round (d / (45 # 2)) in
     windIndex d = Z.rem r 16 /\
     (inject_Z r - (1 # 2) <= d / (45 # 2))%Q /\
     (d / (45 # 2) < inject_Z r + (1 # 2))%Q) /\
  (forall d : Q, (1395 # 4 <= d)%Q -> (d < 1485 # 4)%Q ->
     Math_round (d / (45 # 2)) = 16 /\ windIndex d = 0 /\
     getWindDirection d = Some "N").
Proof.
  split; [reflexivity|]. split; [reflexivity|]. split; [reflexivity|].
  split; [intros d; split; [reflexivity | apply Math_round_nearest]|].
  intros d Hlo Hhi.
  assert (Hr : Math_round (d / (45 # 2)) = 16).
  { apply Math_round_eq.
    - apply Qle_shift_div_l; [done|]. eapply Qle_trans; [|exact Hlo]. q_decide.
    - apply Qlt_shift_div_r; [done|]. eapply Qlt_le_trans; [exact Hhi|]. q_decide. }
  unfold getWindDirection, windIndex. rewrite Hr. done.
Qed.

Lemma getWindDirection_examples_witness :
  Math_round ((720 # 2) / (45 # 2)) = 16 /\ windIndex (720 # 2) = 0 /\
  getWindDirection (720 # 2) = Some "N".
Proof.
  apply (proj2 (proj2 (proj2 (proj2 getWindDirection_examples)))); q_decide.
Defined.

(** C9: over exact rational arithmetic the two temperature conversions are
    inverse to each other, in both orders. *)
Theorem temperature_conversions_inverse :
  (forall c : Q, (fahrenheitToCelsius (celsiusToFahrenheit c) == c)%Q) /\
  (forall f : Q, (celsiusToFahrenheit (fahrenheitToCelsius f) == f)%Q).
Proof.
  split; intros x; unfold fahrenheitToCelsius, celsiusToFahrenheit; field.
Qed.

(** C10: for every [degrees] with 0 <= degrees <= 360 the sector index
    [Math.round(degrees / 22.5) % 16] lies in 0..15 and the lookup in the
    16-element array returns a direction; for a negative input the index can
    be negative and the lookup [undefined] (-45 gives index -2). *)
Theorem windIndex_in_bounds :
  (forall d : Q, (0 <= d)%Q -> (d <= 360 # 1)%Q ->
     0 <= windIndex d <= 15 /\
     exists s, getWindDirection d = Some s /\ s ∈ directions) /\
  (exists d : Q, (d < 0)%Q /\ windIndex d = -2 /\ getWindDirection d = None).
Proof.
  split.
  - intros d H0 H1.
    pose proof (windIndex_round_range d H0 H1) as Hr.
    assert (Hi : 0 <= windIndex d < 16).
    { unfold windIndex, js_rem. apply Z.rem_bound_pos; lia. }
    split; [lia|].
    destruct (array_get_in_range directions (windIndex d)) as [s Hs]; [done|].
    exists s. split; [done|].
    unfold array_get in Hs. destruct (windIndex d <? 0); [done|].
    by eapply list_elem_of_lookup_2.
  - exists (-45 # 1)%Q. by vm_compute.
Qed.

Lemma windIndex_in_bounds_witness :
  0 <= windIndex (180 # 1) <= 15 /\
  exists s, getWindDirection (180 # 1) = Some s /\ s ∈ directions.
Proof. apply (proj1 windIndex_in_bounds); q_decide. Defined.

End WeatherUtilsFacts.

(** ** The TTL cache *)

Section WeatherCacheFacts.
Import JS WeatherCache.

Lemma expired_spec (now max_age : Z) (it : item) :
  expired now max_age it = true <-> now - timestamp it > max_age.
Proof. unfold expired. rewrite Z.gtb_gt. lia. Qed.

Lemma expired_false (now max_age : Z) (it : item) :
  expired now max_age it = false <-> now - timestamp it <= max_age.
Proof.
  unfold expired. destruct (now - timestamp it >? max_age) eqn:E.
  - apply Z.gtb_gt in E. split; [done | lia].
  - split; [|done]. intros _. rewrite Z.gtb_ltb in E. apply Z.ltb_ge in E. lia.
Qed.

(** A key that is gone stays gone during the sweep. *)
Lemma sweep_lookup_None now ma entries (m : gmap string item) k :
  m !! k = None -> sweep now ma entries m !! k = None.
Proof.
  revert m. induction entries as [|[k' it'] entries IH]; intros m Hm; [done|].
  simpl. apply IH. destruct (expired now ma it'); [|done].
  destruct (decide (k' = k)) as [->|Hne].
  - apply lookup_delete_eq.
  - by rewrite lookup_delete_ne.
Qed.

(** An expired entry met by the loop is deleted. *)
Lemma sweep_lookup_expired now ma entries (m : gmap string item) k it :
  (k, it) ∈ entries -> expired now ma it = true ->
  sweep now ma entries m !! k = None.
Proof.
  revert m. induction entries as [|[k' it'] entries IH]; intros m Hin Hexp.
  - by apply elem_of_nil in Hin.
  - apply elem_of_cons in Hin as [Heq|Hin].
    + injection Heq as <- <-. simpl. rewrite Hexp.
      apply sweep_lookup_None, lookup_delete_eq.
    + simpl. by apply IH.
Qed.

(** A key none of whose visited entries is expired is not touched. *)
Lemma sweep_lookup_fresh now ma entries (m : gmap string item) k :
  (forall it, (k, it) ∈ entries -> expired now ma it = false) ->
  sweep now ma entries m !! k = m !! k.
Proof.
  revert m. induction entries as [|[k' it'] entries IH]; intros m Hfresh; [done|].
  simpl. rewrite IH.
  - destruct (expired now ma it') eqn:E; [|done].
    destruct (decide (k' = k)) as [->|Hne]; [|by rewrite lookup_delete_ne].
    rewrite (Hfresh it') in E; [done | apply elem_of_cons; by left].
  - intros it Hin. apply Hfresh. apply elem_of_cons. by right.
Qed.

(** The sweep in any order of visit: what [clearExpired] leaves under a
    key. *)
Lemma sweep_lookup now ma entries (m : gmap string item) k :
  entries ≡ₚ map_to_list m ->
  sweep now ma entries m !! k =
    match m !! k with
    | Some it => if expired now ma it then None else Some it
    | None => None
    end.
Proof.
  intros Hperm. destruct (m !! k) as [it|] eqn:Hk.
  - assert (Hin : (k, it) ∈ entries).
    { rewrite Hperm. by apply elem_of_map_to_list. }
    destruct (expired now ma it) eqn:E.
    + by eapply sweep_lookup_expired.
    + rewrite sweep_lookup_fresh; [done|].
      intros it' Hin'. rewrite Hperm in Hin'.
      apply elem_of_map_to_list in Hin'. congruence.
  - by apply sweep_lookup_None.
Qed.

(** [clearExpired] is the filter that keeps the entries that are not
    expired. *)
Lemma clearExpired_filter now (c : t) :
  cache (clearExpired now c) =
  filter (fun kv => expired now (maxAge c) kv.2 = false) (cache c).
Proof.
  apply map_eq. intros k. simpl. rewrite sweep_lookup by done.
  destruct (cache c !! k) as [it|] eqn:Hk.
  - destruct (expired now (maxAge c) it) eqn:E; symmetry.
    + apply map_lookup_filter_None. right. intros it' Hk'. simpl. congruence.
    + apply map_lookup_filter_Some. done.
  - symmetry. apply map_lookup_filter_None. by left.
Qed.

(** No method changes [maxAge]. *)
Lemma reachable_maxAge (c : t) : reachable c -> maxAge c = 600000.
Proof.
  induction 1 as [|now k v c _ IH|now k c _ IH|now c _ IH|c _ IH]; try done.
  unfold get. destruct (cache c !! k) as [it|]; [|done].
  by destruct (expired now (maxAge c) it).
Qed.

(** C1: immediately after [set(k, v)] (before more than [maxAge] has
    elapsed on the clock), [get(k)] returns [v] and leaves the cache as it
    is; and when the entry under [k] is older than [maxAge], [get(k)]
    returns [null] and deletes that entry. *)
Theorem get_after_set_and_expiry :
  (forall (c : t) (k : string) (v : json) (now now' : Z),
     now' - now <= maxAge c ->
     get now' k (set now k v c) = (v, set now k v c)) /\
  (forall (c : t) (k : string) (v : json) (now : Z),
     reachable c ->
     get now k (set now k v c) = (v, set now k v c)) /\
  (forall (c : t) (k : string) (it : item) (now : Z),
     cache c !! k = Some it ->
     now - timestamp it > maxAge c ->
     get now k c = (JNull, Cache (delete k (cache c)) (maxAge c)) /\
     cache (snd (get now k c)) !! k = None /\
     (forall k', k' <> k -> cache (snd (get now k c)) !! k' = cache c !! k')).
Proof.
  assert (Hset : forall (c : t) (k : string) (v : json) (now now' : Z),
            now' - now <= maxAge c ->
            get now' k (set now k v c) = (v, set now k v c)).
  { intros c k v now now' Hage. unfold get, set. simpl.
    rewrite lookup_insert_eq.
    assert (E : expired now' (maxAge c) (Item v now) = false)
      by (by apply expired_false).
    by rewrite E. }
  split; [exact Hset|]. split.
  - intros c k v now Hc. apply Hset. rewrite (reachable_maxAge c Hc). lia.
  - intros c k it now Hk Hage.
    assert (E : expired now (maxAge c) it = true) by (by apply expired_spec).
    assert (Hget : get now k c = (JNull, Cache (delete k (cache c)) (maxAge c))).
    { unfold get. by rewrite Hk, E. }
    rewrite Hget. simpl. split; [done|]. split.
    + apply lookup_delete_eq.
    + intros k' Hne. by apply lookup_delete_ne.
Qed.

Lemma get_after_set_and_expiry_witness :
  get 500000 "paris" sample_cache = (JStr "sunny", sample_cache) /\
  get 600001 "oslo" sample_cache
    = (JNull, Cache (delete "oslo" (cache sample_cache)) (maxAge sample_cache)).
Proof.
  destruct get_after_set_and_expiry as (Hset & _ & Hexp). split.
  - apply (Hset (set 0 "oslo" (JStr "snow") initial) "paris" (JStr "sunny")
             500000 500000).
    simpl. lia.
  - apply (Hexp sample_cache "oslo" (Item (JStr "snow") 0) 600001).
    + vm_compute. reflexivity.
    + simpl. lia.
Defined.

(** C2: [clearExpired()] removes exactly the entries whose age exceeds
    [maxAge]: every entry with [now - timestamp > maxAge] is deleted, every
    other entry keeps its key, value and timestamp, no entry appears, and
    [maxAge] is not changed; this holds in whatever order the loop visits
    the entries. *)
Theorem clearExpired_exact (now : Z) (c : t) :
  (forall k it, cache c !! k = Some it -> now - timestamp it > maxAge c ->
     cache (clearExpired now c) !! k = None) /\
  (forall k it, cache c !! k = Some it -> now - timestamp it <= maxAge c ->
     cache (clearExpired now c) !! k = Some it) /\
  (forall k, cache c !! k = None -> cache (clearExpired now c) !! k = None) /\
  maxAge (clearExpired now c) = maxAge c /\
  (forall entries, entries ≡ₚ map_to_list (cache c) ->
     sweep now (maxAge c) entries (cache c) = cache (clearExpired now c)).
Proof.
  repeat split.
  - intros k it Hk Hage. simpl. rewrite sweep_lookup, Hk by done.
    by rewrite (proj2 (expired_spec _ _ _) Hage).
  - intros k it Hk Hage. simpl. rewrite sweep_lookup, Hk by done.
    by rewrite (proj2 (expired_false _ _ _) Hage).
  - intros k Hk. simpl. by rewrite sweep_lookup, Hk by done.
  - intros entries Hperm. apply map_eq. intros k. simpl.
    by rewrite !sweep_lookup by done.
Qed.

Lemma clearExpired_exact_witness :
  cache (clearExpired 600001 sample_cache) !! "oslo" = None /\
  cache (clearExpired 600001 sample_cache) !! "paris"
    = Some (Item (JStr "sunny") 500000).
Proof.
  destruct (clearExpired_exact 600001 sample_cache) as (Hold & Hfresh & _).
  split.
  - apply (Hold "oslo" (Item (JStr "snow") 0)); [vm_compute; reflexivity | simpl; lia].
  - apply (Hfresh "paris" (Item (JStr "sunny") 500000));
      [vm_compute; reflexivity | simpl; lia].
Defined.

End WeatherCacheFacts.

(** ** The API client *)

Section WeatherAPIFacts.
Import JS WeatherAPI.
Local Open Scope js_scope.

(** What every method does once its request is built. *)
Lemma fetch_check_parse (req : request) (label : string) (w : world) :
  try_catch
    (let! resp := fetch req in check_and_parse resp)
    (fun error => let! _ := console_error label error in throw error) w
  = let sent := fetched w ++ [req] in
    match network w (length (fetched w)) req with
    | Throw e => (Throw e, World (network w) sent (console w ++ [(label, e)]))
    | Normal resp =>
        if resp_ok resp then
          match resp_json resp with
          | Normal v => (Normal v, World (network w) sent (console w))
          | Throw e => (Throw e, World (network w) sent (console w ++ [(label, e)]))
          end
        else
          (Throw (http_error (resp_status resp)),
           World (network w) sent
                 (console w ++ [(label, http_error (resp_status resp))]))
    end.
Proof.
  unfold try_catch, bind, fetch, check_and_parse, console_error, throw, await.
  simpl. destruct (network w (length (fetched w)) req) as [resp|e]; [|done].
  destruct (resp_ok resp); simpl; [|done].
  by destruct (resp_json resp).
Qed.

(** Each method is that shared shape on its own request and label. *)
Lemma invoke_shape (c : api_call) :
  invoke c =
  try_catch
    (let! resp := fetch (request_of c) in check_and_parse resp)
    (fun error => let! _ := console_error (label_of c) error in throw error).
Proof.
  destruct c as [city country|city days|city s e|city|cities|city country|q];
    simpl; try reflexivity.
  - unfold getCurrentWeather. by destruct (truthy country).
  - unfold getHistoricalWeather. by destruct (truthy s), (truthy e).
  - unfold getAirQuality. by destruct (truthy country).
Qed.

(** C7, as the code has it: every method sends exactly one request (no
    retry); it re-throws the transport error when [fetch] rejects, throws
    the explicit "HTTP error! status: ..." error when [response.ok] is
    false, and otherwise settles as [response.json()] does: it returns the
    parsed body, or re-throws the error of reading the body as JSON. So it
    raises an error if and only if the transport fails, the status is not a
    success, or the body of a successful response is not JSON; every error
    raised is logged once, under the method's label. *)
Theorem api_call_outcome (c : api_call) (w : world) :
  let reply := network w (length (fetched w)) (request_of c) in
  let r := fst (invoke c w) in
  let w' := snd (invoke c w) in
  fetched w' = fetched w ++ [request_of c] /\
  (forall e, reply = Throw e -> r = Throw e) /\
  (forall resp, reply = Normal resp -> resp_ok resp = false ->
     r = Throw (http_error (resp_status resp))) /\
  (forall resp, reply = Normal resp -> resp_ok resp = true ->
     r = resp_json resp) /\
  (is_throw r = true <-> request_fails reply = true \/ body_fails reply = true) /\
  (forall e, r = Throw e -> console w' = console w ++ [(label_of c, e)]) /\
  (forall v, r = Normal v -> console w' = console w).
Proof.
  rewrite invoke_shape, fetch_check_parse. simpl.
  destruct (network w (length (fetched w)) (request_of c)) as [resp|e]; simpl.
  - destruct (resp_ok resp) eqn:Hok; simpl.
    + destruct (resp_json resp) as [v|e] eqn:Hjson; simpl;
        repeat split; try done; try congruence;
        try (intros resp' [= <-]; congruence); intuition congruence.
    + repeat split; try done; try congruence;
        try (intros resp' [= <-]; congruence); intuition congruence.
  - repeat split; try done; try congruence; intuition congruence.
Qed.

Lemma api_call_outcome_witness :
  fst (invoke (CallAlerts "Oslo") html_world)
  = Throw (Error "SyntaxError" "Unexpected token < in JSON").
Proof.
  destruct (api_call_outcome (CallAlerts "Oslo") html_world)
    as (_ & _ & _ & Hok & _).
  apply (Hok html_reply); reflexivity.
Defined.

(** C7 as it is worded fails: against a server that answers 200 with a body
    that is not JSON the request has not failed (no transport error, a
    successful status), and yet [getAlerts] raises an error instead of
    returning a parsed body. *)
Lemma api_call_claim_counterexample :
  let reply := network html_world 0%nat (request_of (CallAlerts "Oslo")) in
  request_fails reply = false /\
  is_throw (fst (invoke (CallAlerts "Oslo") html_world)) = true /\
  ~ (is_throw (fst (invoke (CallAlerts "Oslo") html_world)) = true
     <-> request_fails reply = true).
Proof.
  split; [reflexivity|]. split; [reflexivity|].
  intros [H _]. specialize (H eq_refl). discriminate H.
Qed.

End WeatherAPIFacts.

(** ** The localStorage helper *)

Section StorageUtilsFacts.
Import JS StorageUtils.
Context {Store V : Type}.
Variable B : backend Store V.

Lemma save_total (key : string) (value : V) (w : world Store) :
  exists w', save B key value w = (Normal tt, w').
Proof.
  unfold save, try_catch, bind, await, lift_store, console_error.
  destruct (JSON_stringify B value) as [text|e]; [|by eexists].
  destruct (setItem B key text (store w)) as [[[]|e] st]; by eexists.
Qed.

Lemma remove_total (key : string) (w : world Store) :
  exists w', remove B key w = (Normal tt, w').
Proof.
  unfold remove, try_catch, lift_store, console_error.
  destruct (removeItem B key (store w)) as [[[]|e] st]; by eexists.
Qed.

Lemma clear_total (w : world Store) :
  exists w', clear B w = (Normal tt, w').
Proof.
  unfold clear, try_catch, lift_store, console_error.
  destruct (clearItems B (store w)) as [[[]|e] st]; by eexists.
Qed.

(** What [load] returns, case by case on what [getItem] and [JSON.parse]
    do. *)
Lemma load_result (key : string) (d : V) (w : world Store) :
  fst (load B key d w) =
  Normal
    match fst (getItem B key (store w)) with
    | Throw _ => d
    | Normal item =>
        if truthy item then
          match JSON_parse B (default "" item) with
          | Normal v => v
          | Throw _ => d
          end
        else d
    end.
Proof.
  unfold load, try_catch, bind, await, lift_store, console_error, ret.
  destruct (getItem B key (store w)) as [[item|e] st]; simpl; [|done].
  destruct (truthy item); [|done].
  by destruct (JSON_parse B (default "" item)).
Qed.

End StorageUtilsFacts.

(** C8: on every browser (every behaviour of [localStorage] and [JSON]),
    [save], [load], [remove] and [clear] complete normally whatever the
    storage layer throws; and [load(k, d)] returns [d] when the read throws,
    when [JSON.parse] throws, and when nothing is stored under [k]. *)
Theorem storage_never_throws {Store V : Type}
  (B : StorageUtils.backend Store V) (k : string) (v d : V)
  (w : StorageUtils.world Store) :
  (exists w', StorageUtils.save B k v w = (JS.Normal tt, w')) /\
  (exists x w', StorageUtils.load B k d w = (JS.Normal x, w')) /\
  (exists w', StorageUtils.remove B k w = (JS.Normal tt, w')) /\
  (exists w', StorageUtils.clear B w = (JS.Normal tt, w')) /\
  (forall e, fst (StorageUtils.getItem B k (StorageUtils.store w)) = JS.Throw e ->
     fst (StorageUtils.load B k d w) = JS.Normal d) /\
  (forall text e,
     fst (StorageUtils.getItem B k (StorageUtils.store w)) = JS.Normal (Some text) ->
     StorageUtils.JSON_parse B text = JS.Throw e ->
     fst (StorageUtils.load B k d w) = JS.Normal d) /\
  (fst (StorageUtils.getItem B k (StorageUtils.store w)) = JS.Normal None ->
     fst (StorageUtils.load B k d w) = JS.Normal d).
Proof.
  split; [apply save_total|].
  split.
  { pose proof (load_result B k d w) as H.
    destruct (StorageUtils.load B k d w) as [r w'] eqn:E. simpl in H.
    rewrite H. by do 2 eexists. }
  split; [apply remove_total|].
  split; [apply clear_total|].
  rewrite load_result.
  split; [by intros e ->|].
  split.
  - intros text e -> Hparse. simpl. rewrite Hparse.
    by destruct (negb _).
  - by intros ->.
Qed.

Lemma storage_never_throws_witness :
  fst (StorageUtils.load StorageUtils.literal_backend "theme" (JS.JStr "light")
         StorageUtils.corrupt_store) = JS.Normal (JS.JStr "light") /\
  fst (StorageUtils.load StorageUtils.literal_backend "theme" (JS.JStr "light")
         StorageUtils.denied_store) = JS.Normal (JS.JStr "light") /\
  fst (StorageUtils.load StorageUtils.literal_backend "units" (JS.JStr "metric")
         StorageUtils.corrupt_store) = JS.Normal (JS.JStr "metric").
Proof.
  split; [|split].
  - destruct (storage_never_throws StorageUtils.literal_backend "theme"
                JS.JNull (JS.JStr "light") StorageUtils.corrupt_store)
      as (_ & _ & _ & _ & _ & Hparse & _).
    apply (Hparse "dark" StorageUtils.syntax_error); vm_compute; reflexivity.
  - destruct (storage_never_throws StorageUtils.literal_backend "theme"
                JS.JNull (JS.JStr "light") StorageUtils.denied_store)
      as (_ & _ & _ & _ & Hread & _).
    apply (Hread StorageUtils.security_error); vm_compute; reflexivity.
  - destruct (storage_never_throws StorageUtils.literal_backend "units"
                JS.JNull (JS.JStr "metric") StorageUtils.corrupt_store)
      as (_ & _ & _ & _ & _ & _ & Hnone).
    apply Hnone; vm_compute; reflexivity.
Defined.

(** ** debounce *)

Section DebounceFacts.
Import Timers UIUtils.
Context {A : Type}.
Variable wait : Z.
Hypothesis wait_nonneg : 0 <= wait.
Variable p : tie_policy.

Notation run_until := (drain_until d_timers d_set_timers later p).
Notation run_all := (drain_all d_timers d_set_timers later).
Notation run_session :=
  (session d_timers d_set_timers later (executedFunction wait) p).

Lemma d_idle_run_until (t : Z) (s : debounce_state (A:=A)) :
  d_idle s -> run_until t s = s.
Proof. unfold d_idle, drain_until. by intros ->. Qed.

Lemma d_idle_run_all (s : debounce_state (A:=A)) :
  d_idle s -> run_all s = s.
Proof. unfold d_idle, drain_all. by intros ->. Qed.

(** The one pending timer runs: [func] receives its arguments at its
    deadline. *)
Lemma d_armed_fire (ready : Z -> bool) due (a : A) s :
  d_armed due a s -> ready due = true ->
  let s' := drain d_timers d_set_timers later 1 ready s in
  d_idle s' /\ d_calls s' = d_calls s ++ [(due, a)].
Proof.
  intros (id & Hto & Hp) Hready. destruct s as [to [n ps] calls].
  simpl in *. subst. simpl. rewrite Hready.
  unfold fire, d_idle. simpl. by rewrite !Nat.eqb_refl.
Qed.

Lemma d_armed_wait (ready : Z -> bool) due (a : A) s :
  d_armed due a s -> ready due = false ->
  drain d_timers d_set_timers later 1 ready s = s.
Proof.
  intros (id & Hto & Hp) Hready. destruct s as [to [n ps] calls].
  simpl in *. subst. simpl. by rewrite Hready.
Qed.

(** An invocation cancels what is pending and schedules its own call. *)
Lemma executedFunction_arms (now : Z) (a : A) s :
  d_idle s \/ (exists due a', d_armed due a' s) ->
  d_armed (now + wait) a (executedFunction wait now a s) /\
  d_calls (executedFunction wait now a s) = d_calls s.
Proof.
  intros Hs. destruct s as [to [n ps] calls].
  unfold executedFunction, d_armed. simpl.
  rewrite Z.max_r by lia.
  assert (Hclear : pending (clearTimeout to (Queue n ps)) = []
                   /\ next_id (clearTimeout to (Queue n ps)) = n).
  { destruct Hs as [Hidle|(due & a' & id & Hto & Hp)];
      unfold d_idle in *; simpl in *; subst.
    - by destruct to.
    - simpl. by rewrite Nat.eqb_refl. }
  destruct Hclear as [Hp Hn]. rewrite Hp, Hn. split; [|done].
  by exists n.
Qed.

(** The session from an armed state, against the specification. *)
Lemma d_session_armed (events : list (Z * A)) :
  forall t a s,
    d_armed (t + wait) a s ->
    let s' := run_session events s in
    d_calls s' = d_calls s ++ debounce_spec wait p ((t, a) :: events) /\
    d_idle s'.
Proof.
  induction events as [|[t' a'] rest IH]; intros t a s Harmed.
  - simpl. unfold drain_all.
    destruct Harmed as (id & Hto & Hp) eqn:E. rewrite Hp. simpl length.
    destruct (d_armed_fire (fun _ => true) (t + wait) a s Harmed eq_refl)
      as [Hidle Hcalls].
    split; [exact Hcalls | exact Hidle].
  - change (run_session ((t', a') :: rest) s)
      with (run_session rest (executedFunction wait t' a' (run_until t' s))).
    assert (Hlen : run_until t' s
                   = drain d_timers d_set_timers later 1 (runs_before p t') s).
    { unfold drain_until. destruct Harmed as (id & _ & ->). done. }
    change (debounce_spec wait p ((t, a) :: (t', a') :: rest))
      with (if runs_before p t' (t + wait)
            then (t + wait, a) :: debounce_spec wait p ((t', a') :: rest)
            else debounce_spec wait p ((t', a') :: rest)).
    destruct (runs_before p t' (t + wait)) eqn:Hready.
    + destruct (d_armed_fire _ _ _ _ Harmed Hready) as [Hidle Hcalls].
      rewrite <- Hlen in Hidle, Hcalls.
      destruct (executedFunction_arms t' a' (run_until t' s) (or_introl Hidle))
        as [Harmed' Hcalls'].
      destruct (IH t' a' _ Harmed') as [IHcalls IHidle].
      split; [|exact IHidle].
      rewrite IHcalls, Hcalls', Hcalls, <- app_assoc. done.
    + rewrite Hlen, (d_armed_wait _ _ _ _ Harmed Hready).
      assert (Hs : d_idle s \/ (exists due a0, d_armed due a0 s))
        by (right; eauto).
      destruct (executedFunction_arms t' a' s Hs) as [Harmed' Hcalls'].
      destruct (IH t' a' _ Harmed') as [IHcalls IHidle].
      split; [|exact IHidle].
      by rewrite IHcalls, Hcalls'.
Qed.

(** A whole session of the debounced function is what the specification
    says, and leaves no timer behind. *)
Lemma debounce_session_spec (events : list (Z * A)) :
  d_calls (debounce_session wait p events) = debounce_spec wait p events /\
  d_idle (debounce_session wait p events).
Proof.
  unfold debounce_session. destruct events as [|[t a] rest].
  - done.
  - change (run_session ((t, a) :: rest) debounce)
      with (run_session rest (executedFunction wait t a (run_until t debounce))).
    rewrite d_idle_run_until by done.
    destruct (executedFunction_arms t a debounce (or_introl eq_refl))
      as [Harmed Hcalls].
    destruct (d_session_armed rest t a _ Harmed) as [IHcalls IHidle].
    split; [|exact IHidle]. by rewrite IHcalls, Hcalls.
Qed.

(** In a burst only the last invocation survives. *)
Lemma debounce_spec_burst (events : list (Z * A)) (t : Z) (a : A) :
  burst wait (events ++ [(t, a)]) ->
  debounce_spec wait p (events ++ [(t, a)]) = [(t + wait, a)].
Proof.
  induction events as [|[t0 a0] rest IH]; intros Hb; [done|].
  change (((t0, a0) :: rest) ++ [(t, a)]) with ((t0, a0) :: (rest ++ [(t, a)])) in *.
  destruct (rest ++ [(t, a)]) as [|[t1 a1] rest'] eqn:E.
  - by destruct rest.
  - destruct Hb as [[Hlo Hhi] Hb].
    change (debounce_spec wait p ((t0, a0) :: (t1, a1) :: rest'))
      with (if runs_before p t1 (t0 + wait)
            then (t0 + wait, a0) :: debounce_spec wait p ((t1, a1) :: rest')
            else debounce_spec wait p ((t1, a1) :: rest')).
    assert (Hnot : runs_before p t1 (t0 + wait) = false).
    { destruct p; simpl; [apply Z.leb_gt | apply Z.ltb_ge]; lia. }
    rewrite Hnot. by apply IH.
Qed.

End DebounceFacts.

(** C3: with [wait = 300], invocations at t = 0, 50 and 100 make [func]
    run exactly once, at t = 400, with the arguments of the invocation at
    t = 100. In general every invocation cancels the pending call and
    schedules its own, [wait] later; of a burst of invocations (each less
    than [wait] after the one before) only the last runs, [wait] after it
    and with its arguments; and any session is what the specification
    describes and leaves no timer behind. *)
Theorem debounce_last_call_wins {A : Type} :
  (forall (p : Timers.tie_policy) (a0 a50 a100 : A),
     UIUtils.d_calls
       (UIUtils.debounce_session 300 p [(0, a0); (50, a50); (100, a100)])
     = [(400, a100)]) /\
  (forall (wait now : Z) (a : A) (s : UIUtils.debounce_state),
     0 <= wait ->
     UIUtils.d_idle s \/ (exists due a', UIUtils.d_armed due a' s) ->
     UIUtils.d_armed (now + wait) a (UIUtils.executedFunction wait now a s) /\
     UIUtils.d_calls (UIUtils.executedFunction wait now a s) = UIUtils.d_calls s) /\
  (forall (wait : Z) (p : Timers.tie_policy) (events : list (Z * A)) (t : Z) (a : A),
     0 <= wait ->
     Timers.burst wait (events ++ [(t, a)]) ->
     UIUtils.d_calls (UIUtils.debounce_session wait p (events ++ [(t, a)]))
     = [(t + wait, a)]) /\
  (forall (wait : Z) (p : Timers.tie_policy) (events : list (Z * A)),
     0 <= wait ->
     UIUtils.d_calls (UIUtils.debounce_session wait p events)
     = UIUtils.debounce_spec wait p events /\
     UIUtils.d_idle (UIUtils.debounce_session wait p events)).
Proof.
  split; [|split; [|split]].
  - intros p a0 a50 a100. by destruct p.
  - intros wait now a s Hwait Hs. by apply executedFunction_arms.
  - intros wait p events t a Hwait Hburst.
    rewrite (proj1 (debounce_session_spec wait Hwait p _)).
    by apply debounce_spec_burst.
  - intros wait p events Hwait. by apply debounce_session_spec.
Qed.

Lemma debounce_last_call_wins_witness :
  UIUtils.d_calls
    (UIUtils.debounce_session 300 Timers.TimersFirst
       ([(0, "r"); (50, "ro")] ++ [(100, "rom")]))
  = [(100 + 300, "rom")].
Proof.
  destruct (@debounce_last_call_wins string) as (_ & _ & Hburst & _).
  apply (Hburst 300 Timers.TimersFirst [(0, "r"); (50, "ro")] 100 "rom").
  - lia.
  - simpl. lia.
Defined.

(** ** throttle *)

Section ThrottleFacts.
Import Timers UIUtils.
Context {A : Type}.
Variable limit : Z.
Hypothesis limit_nonneg : 0 <= limit.
Variable p : tie_policy.

Notation run_until := (drain_until t_timers t_set_timers release p).
Notation run_all := (drain_all t_timers t_set_timers release).
Notation run_session :=
  (session t_timers t_set_timers release (throttled limit) p).

Lemma t_open_run_until (t : Z) (s : throttle_state (A:=A)) :
  t_open s -> run_until t s = s.
Proof. unfold drain_until. by intros [_ ->]. Qed.

Lemma t_open_run_all (s : throttle_state (A:=A)) :
  t_open s -> run_all s = s.
Proof. unfold drain_all. by intros [_ ->]. Qed.

(** The cooldown ends when its timer runs. *)
Lemma t_cooling_release (ready : Z -> bool) c (s : throttle_state (A:=A)) :
  t_cooling c s -> ready c = true ->
  let s' := drain t_timers t_set_timers release 1 ready s in
  t_open s' /\ t_calls s' = t_calls s.
Proof.
  intros (Hin & id & Hp) Hready. destruct s as [b [n ps] calls].
  simpl in *. subst. simpl. rewrite Hready.
  unfold fire, t_open. simpl. by rewrite !Nat.eqb_refl.
Qed.

Lemma t_cooling_wait (ready : Z -> bool) c (s : throttle_state (A:=A)) :
  t_cooling c s -> ready c = false ->
  drain t_timers t_set_timers release 1 ready s = s.
Proof.
  intros (Hin & id & Hp) Hready. destruct s as [b [n ps] calls].
  simpl in *. subst. simpl. by rewrite Hready.
Qed.

(** A call on the open gate goes through at once and starts the
    cooldown. *)
Lemma throttled_open (now : Z) (a : A) s :
  t_open s ->
  t_cooling (now + limit) (throttled limit now a s) /\
  t_calls (throttled limit now a s) = t_calls s ++ [(now, a)].
Proof.
  intros [Hin Hp]. destruct s as [b [n ps] calls]. simpl in *. subst.
  unfold throttled, t_cooling. simpl. rewrite Z.max_r by lia.
  split; [|done]. split; [done|]. by exists n.
Qed.

(** A call during the cooldown is ignored. *)
Lemma throttled_cooling (now : Z) (a : A) c s :
  t_cooling c s -> throttled limit now a s = s.
Proof. intros [Hin _]. unfold throttled. by rewrite Hin. Qed.

(** The session from either kind of state, against the specification; no
    timer is left behind. *)
Lemma t_session_spec (events : list (Z * A)) :
  forall s,
    (t_open s ->
     t_calls (run_session events s)
     = t_calls s ++ throttle_spec limit p None events /\
     t_open (run_session events s)) /\
    (forall c, t_cooling c s ->
     t_calls (run_session events s)
     = t_calls s ++ throttle_spec limit p (Some c) events /\
     t_open (run_session events s)).
Proof.
  induction events as [|[t a] rest IH]; intros s.
  - simpl. split.
    + intros Hopen. by rewrite t_open_run_all, app_nil_r.
    + intros c Hcool. unfold drain_all.
      destruct Hcool as (Hin & id & Hp) eqn:E. rewrite Hp. simpl length.
      destruct (t_cooling_release (fun _ => true) c s Hcool eq_refl)
        as [Hopen ->].
      by rewrite app_nil_r.
  - change (run_session ((t, a) :: rest) s)
      with (run_session rest (throttled limit t a (run_until t s))).
    split.
    + intros Hopen. rewrite t_open_run_until by done.
      destruct (throttled_open t a s Hopen) as [Hcool Hcalls].
      destruct (proj2 (IH _) _ Hcool) as [IHcalls IHopen].
      split; [|exact IHopen].
      rewrite IHcalls, Hcalls, <- app_assoc. done.
    + intros c Hcool.
      assert (Hlen : run_until t s
                     = drain t_timers t_set_timers release 1 (runs_before p t) s).
      { unfold drain_until. destruct Hcool as (_ & id & ->). done. }
      simpl throttle_spec.
      destruct (runs_before p t c) eqn:Hready.
      * destruct (t_cooling_release _ _ _ Hcool Hready) as [Hopen Hcalls].
        rewrite <- Hlen in Hopen, Hcalls.
        destruct (throttled_open t a _ Hopen) as [Hcool' Hcalls'].
        destruct (proj2 (IH _) _ Hcool') as [IHcalls IHopen].
        split; [|exact IHopen].
        rewrite IHcalls, Hcalls', Hcalls, <- app_assoc. done.
      * rewrite Hlen, (t_cooling_wait _ _ _ Hcool Hready).
        rewrite (throttled_cooling t a c s Hcool).
        apply (proj2 (IH s) c Hcool).
Qed.

Lemma throttle_session_spec (events : list (Z * A)) :
  t_calls (throttle_session limit p events) = throttle_spec limit p None events /\
  t_open (throttle_session limit p events).
Proof.
  unfold throttle_session.
  by destruct (proj1 (t_session_spec events throttle)) as [-> Hopen].
Qed.

End ThrottleFacts.

(** C4: with [limit = 200], calls at t = 0, 10 and 300 make [func] run
    exactly twice, at t = 0 and at t = 300. In general the first call goes
    through at once; a call made before [limit] has elapsed since the last
    call that went through is ignored; a call made after that goes through
    at once and restarts the cooldown; and any session is what the
    specification describes and leaves no timer behind. *)
Theorem throttle_first_call_wins {A : Type} :
  (forall (p : Timers.tie_policy) (a0 a10 a300 : A),
     UIUtils.t_calls
       (UIUtils.throttle_session 200 p [(0, a0); (10, a10); (300, a300)])
     = [(0, a0); (300, a300)]) /\
  (forall (limit : Z) (p : Timers.tie_policy) (t : Z) (a : A) (rest : list (Z * A)),
     0 <= limit ->
     exists calls,
       UIUtils.t_calls (UIUtils.throttle_session limit p ((t, a) :: rest))
       = (t, a) :: calls) /\
  (forall (limit : Z) (p : Timers.tie_policy) (t t' : Z) (a a' : A),
     0 <= limit -> t <= t' < t + limit ->
     UIUtils.t_calls (UIUtils.throttle_session limit p [(t, a); (t', a')])
     = [(t, a)]) /\
  (forall (limit : Z) (p : Timers.tie_policy) (t t' t'' : Z) (a a' a'' : A),
     0 <= limit -> t + limit < t' -> t' <= t'' < t' + limit ->
     UIUtils.t_calls
       (UIUtils.throttle_session limit p [(t, a); (t', a'); (t'', a'')])
     = [(t, a); (t', a')]) /\
  (forall (limit : Z) (p : Timers.tie_policy) (events : list (Z * A)),
     0 <= limit ->
     UIUtils.t_calls (UIUtils.throttle_session limit p events)
     = UIUtils.throttle_spec limit p None events /\
     UIUtils.t_open (UIUtils.throttle_session limit p events)).
Proof.
  split; [|split; [|split; [|split]]].
  - intros p a0 a10 a300. by destruct p.
  - intros limit p t a rest Hlimit.
    rewrite (proj1 (throttle_session_spec limit Hlimit p _)). simpl. by eexists.
  - intros limit p t t' a a' Hlimit Hin.
    rewrite (proj1 (throttle_session_spec limit Hlimit p _)). simpl.
    assert (Hnot : Timers.runs_before p t' (t + limit) = false).
    { destruct p; simpl; [apply Z.leb_gt | apply Z.ltb_ge]; lia. }
    by rewrite Hnot.
  - intros limit p t t' t'' a a' a'' Hlimit Hafter Hin.
    rewrite (proj1 (throttle_session_spec limit Hlimit p _)). simpl.
    assert (Hyes : Timers.runs_before p t' (t + limit) = true).
    { destruct p; simpl; [apply Z.leb_le | apply Z.ltb_lt]; lia. }
    assert (Hnot : Timers.runs_before p t'' (t' + limit) = false).
    { destruct p; simpl; [apply Z.leb_gt | apply Z.ltb_ge]; lia. }
    by rewrite Hyes, Hnot.
  - intros limit p events Hlimit. by apply throttle_session_spec.
Qed.

Lemma throttle_first_call_wins_witness :
  UIUtils.t_calls
    (UIUtils.throttle_session 200 Timers.EventsFirst
       [(0, "down"); (300, "up"); (310, "up")])
  = [(0, "down"); (300, "up")].
Proof.
  destruct (@throttle_first_call_wins string) as (_ & _ & _ & Hcool & _).
  apply (Hcool 200 Timers.EventsFirst 0 300 310); lia.
Defined.

(** ** More on the TTL cache *)

Section WeatherCacheMore.
Import JS WeatherCache.

(** What [clearExpired] leaves under a key. *)
Lemma clearExpired_lookup now (c : t) k :
  cache (clearExpired now c) !! k =
    match cache c !! k with
    | Some it => if expired now (maxAge c) it then None else Some it
    | None => None
    end.
Proof. simpl. by apply sweep_lookup. Qed.

Lemma expired_mono now now' ma it :
  now <= now' -> expired now ma it = true -> expired now' ma it = true.
Proof. rewrite !expired_spec. lia. Qed.

Lemma cache_eq (c c' : t) :
  cache c = cache c' -> maxAge c = maxAge c' -> c = c'.
Proof. destruct c, c'. simpl. by intros -> ->. Qed.

(** X1: [get] returns a value other than [null] only from an entry that is
    there and not older than [maxAge], and then it leaves the cache as it
    is; whatever it returns, it never touches another key and never adds
    an entry. *)
Theorem get_sound (now : Z) (k : string) (c : t) :
  (fst (get now k c) <> JNull ->
     exists it, cache c !! k = Some it /\ data it = fst (get now k c) /\
                now - timestamp it <= maxAge c /\ snd (get now k c) = c) /\
  (forall k', k' <> k -> cache (snd (get now k c)) !! k' = cache c !! k') /\
  cache (snd (get now k c)) ⊆ cache c /\
  maxAge (snd (get now k c)) = maxAge c.
Proof.
  unfold get. destruct (cache c !! k) as [it|] eqn:Hk; simpl.
  - destruct (expired now (maxAge c) it) eqn:E; simpl.
    + split; [done|]. split; [|split; [|done]].
      * intros k' Hne. by apply lookup_delete_ne.
      * apply delete_subseteq.
    + split; [|done]. intros _. exists it.
      by rewrite <- expired_false.
  - done.
Qed.

Lemma get_sound_witness :
  exists it, cache sample_cache !! "paris" = Some it /\
             data it = fst (get 500001 "paris" sample_cache) /\
             500001 - timestamp it <= maxAge sample_cache /\
             snd (get 500001 "paris" sample_cache) = sample_cache.
Proof.
  apply (proj1 (get_sound 500001 "paris" sample_cache)).
  vm_compute. discriminate.
Defined.

(** X2: [set] overwrites: a second [set] on a key makes the first one
    forgotten, value and timestamp, so an expired entry that is set again
    is served again; and [set] on one key changes nothing that [get]
    returns for another key. *)
Theorem set_overwrites_and_frames (c : t) (k : string) (v v' : json) (now now' : Z) :
  set now' k v' (set now k v c) = set now' k v' c /\
  (forall now'' k', k' <> k ->
     fst (get now'' k' (set now k v c)) = fst (get now'' k' c)) /\
  (forall it, cache c !! k = Some it -> now - timestamp it > maxAge c ->
     fst (get now k c) = JNull /\
     (0 <= maxAge c -> fst (get now k (set now k v c)) = v)).
Proof.
  split; [|split].
  - unfold set. simpl. by rewrite insert_insert_eq.
  - intros now'' k' Hne. unfold get, set. simpl.
    rewrite lookup_insert_ne by congruence.
    destruct (cache c !! k') as [it|]; [|done].
    by destruct (expired now'' (maxAge c) it).
  - intros it Hk Hage. split.
    + unfold get. rewrite Hk.
      by rewrite (proj2 (expired_spec _ _ _) Hage).
    + intros Hma. unfold get, set. simpl. rewrite lookup_insert_eq.
      assert (E : expired now (maxAge c) (Item v now) = false)
        by (apply expired_false; simpl; lia).
      by rewrite E.
Qed.

Lemma set_overwrites_and_frames_witness :
  fst (get 700000 "oslo" sample_cache) = JNull /\
  (0 <= maxAge sample_cache ->
   fst (get 700000 "oslo" (set 700000 "oslo" (JStr "rain") sample_cache))
   = JStr "rain").
Proof.
  destruct (set_overwrites_and_frames sample_cache "oslo" (JStr "rain")
              (JStr "rain") 700000 700000) as (_ & _ & Hre).
  apply (Hre (Item (JStr "snow") 0)); [vm_compute; reflexivity | simpl; lia].
Defined.

(** X3: sweeping twice is sweeping once: [clearExpired] is idempotent, and
    a sweep absorbs every earlier sweep. *)
Theorem clearExpired_absorbs (c : t) (now now' : Z) :
  now <= now' ->
  clearExpired now' (clearExpired now c) = clearExpired now' c /\
  clearExpired now (clearExpired now c) = clearExpired now c.
Proof.
  assert (H : forall n n', n <= n' ->
            clearExpired n' (clearExpired n c) = clearExpired n' c).
  { intros n n' Hle. apply cache_eq; [|done].
    apply map_eq. intros k. rewrite !clearExpired_lookup.
    change (maxAge (clearExpired n c)) with (maxAge c).
    destruct (cache c !! k) as [it|]; [|done].
    destruct (expired n (maxAge c) it) eqn:E; [|done].
    by rewrite (expired_mono n n' _ _ Hle E). }
  intros Hle. split; [by apply H | apply H; lia].
Qed.

Lemma clearExpired_absorbs_witness :
  clearExpired 900000 (clearExpired 600001 sample_cache)
  = clearExpired 900000 sample_cache /\
  clearExpired 600001 (clearExpired 600001 sample_cache)
  = clearExpired 600001 sample_cache.
Proof. apply clearExpired_absorbs. lia. Defined.

(** X4: a sweep cannot be seen by readers: whatever [get] returns after a
    sweep made earlier (or at the same instant), it returns without the
    sweep. *)
Theorem clearExpired_invisible (c : t) (k : string) (now now' : Z) :
  now <= now' ->
  fst (get now' k (clearExpired now c)) = fst (get now' k c).
Proof.
  intros Hle. unfold get. rewrite clearExpired_lookup.
  change (maxAge (clearExpired now c)) with (maxAge c).
  destruct (cache c !! k) as [it|]; [|reflexivity].
  destruct (expired now (maxAge c) it) eqn:E.
  - by rewrite (expired_mono now now' _ _ Hle E).
  - by destruct (expired now' (maxAge c) it).
Qed.

Lemma clearExpired_invisible_witness :
  fst (get 600002 "paris" (clearExpired 600001 sample_cache))
  = fst (get 600002 "paris" sample_cache).
Proof. apply clearExpired_invisible. lia. Defined.

(** Entries are added by [set] alone. *)
Lemma step_no_new_entry (now : Z) (o : op) (c : t) :
  (forall key d, o <> OpSet key d) -> cache (step now o c) ⊆ cache c.
Proof.
  intros Hno. destruct o as [key|key d| |]; unfold step.
  - apply get_sound.
  - by destruct (Hno key d).
  - rewrite clearExpired_filter. apply map_filter_subseteq.
  - apply map_empty_subseteq.
Qed.

Lemma step_maxAge (now : Z) (o : op) (c : t) : maxAge (step now o c) = maxAge c.
Proof. destruct o; simpl; try done. apply get_sound. Qed.

Lemma step_stamped_from (lo now : Z) (o : op) (c : t) :
  lo <= now -> stamped_from lo c -> stamped_from lo (step now o c).
Proof.
  intros Hle Hc k it Hk. destruct o as [key|key d| |]; simpl in Hk.
  - eapply Hc, lookup_weaken; [exact Hk | apply get_sound].
  - destruct (decide (key = k)) as [->|Hne].
    + rewrite lookup_insert_eq in Hk. injection Hk as <-. done.
    + rewrite lookup_insert_ne in Hk by done. by eapply Hc.
  - eapply Hc, lookup_weaken; [exact Hk|].
    apply (step_no_new_entry now OpClearExpired c). done.
  - by rewrite lookup_empty in Hk.
Qed.

Lemma run_stamped_from (lo : Z) (history : list (Z * op)) (c : t) :
  Forall (fun now => lo <= now) (history.*1) ->
  stamped_from lo c -> stamped_from lo (run history c).
Proof.
  revert c. induction history as [|[now o] rest IH]; intros c Hall Hc; [done|].
  apply Forall_cons in Hall as [Hnow Hall]. simpl. apply IH; [done|].
  by apply step_stamped_from.
Qed.

Lemma run_maxAge (history : list (Z * op)) (c : t) :
  maxAge (run history c) = maxAge c.
Proof.
  revert c. induction history as [|[now o] rest IH]; intros c; [done|].
  simpl. fold (run rest (step now o c)). by rewrite IH, step_maxAge.
Qed.

(** After a sweep at time [T] along a chronological history, no entry is
    stamped before [T - maxAge]. *)
Lemma run_after_sweep (history : list (Z * op)) (c : t) (T : Z) :
  0 <= maxAge c -> chronological history -> (T, OpClearExpired) ∈ history ->
  stamped_from (T - maxAge c) (run history c).
Proof.
  unfold chronological.
  revert c. induction history as [|[now o] rest IH]; intros c Hma Hsorted Hin.
  - by apply elem_of_nil in Hin.
  - simpl in Hsorted. apply Sorted_StronglySorted in Hsorted;
      [|intros x y z; lia].
    apply StronglySorted_inv in Hsorted as [Hrest Hall].
    apply elem_of_cons in Hin as [Heq|Hin].
    + injection Heq as <- <-. simpl. fold (run rest (clearExpired T c)).
      apply run_stamped_from.
      * eapply Forall_impl; [exact Hall|]. simpl. intros; lia.
      * intros k it Hk. rewrite clearExpired_lookup in Hk.
        destruct (cache c !! k) as [it'|]; [|done].
        destruct (expired T (maxAge c) it') eqn:E; [done|].
        injection Hk as <-. apply expired_false in E. lia.
    + simpl. fold (run rest (step now o c)).
      rewrite <- (step_maxAge now o c).
      apply IH; [by rewrite step_maxAge | by apply StronglySorted_Sorted | done].
Qed.

(** X5: with the sweep that the page schedules every 5 minutes, no entry
    stays in the cache longer than [maxAge] plus the sweep interval: along
    any chronological history of the cache that holds a sweep at time [T],
    an entry that is still there at a time [now] at most one interval after
    [T] is at most 15 minutes old. *)
Theorem cache_residency_bounded
  (history : list (Z * op)) (T now : Z) (k : string) (it : item) :
  chronological history ->
  (T, OpClearExpired) ∈ history ->
  now - T <= sweep_interval ->
  cache (run history initial) !! k = Some it ->
  now - timestamp it <= 15 * 60 * 1000.
Proof.
  intros Hchrono Hin Hnow Hk.
  pose proof (run_after_sweep history initial T) as H.
  specialize (H ltac:(simpl; lia) Hchrono Hin k it Hk).
  simpl in H. unfold sweep_interval in Hnow. lia.
Qed.

Lemma cache_residency_bounded_witness :
  800000 - timestamp (Item (JStr "sunny") 500000) <= 15 * 60 * 1000.
Proof.
  apply (cache_residency_bounded
           [(0, OpSet "oslo" (JStr "snow")); (500000, OpSet "paris" (JStr "sunny"));
            (600001, OpClearExpired); (600002, OpGet "oslo")]
           600001 800000 "paris" (Item (JStr "sunny") 500000)).
  - unfold chronological. simpl. repeat constructor; lia.
  - set_solver.
  - unfold sweep_interval. lia.
  - vm_compute. reflexivity.
Defined.

(** X6: entries come from [set] alone: [get], [clearExpired] and [clear]
    leave a cache that is part of the one they found, and after [clear]
    every [get] returns [null] until the next [set]. *)
Theorem only_set_adds (now : Z) (o : op) (c : t) :
  (forall key d, o <> OpSet key d) ->
  cache (step now o c) ⊆ cache c /\
  (size (cache (step now o c)) <= size (cache c))%nat /\
  (o = OpClear -> forall now' k, get now' k (step now o c) = (JNull, step now o c)).
Proof.
  intros Hno. pose proof (step_no_new_entry now o c Hno) as Hsub.
  split; [done|]. split.
  - by apply map_subseteq_size.
  - intros -> now' k. unfold get. simpl. by rewrite lookup_empty.
Qed.

Lemma only_set_adds_witness :
  cache (step 600001 OpClearExpired sample_cache) ⊆ cache sample_cache.
Proof. apply (only_set_adds 600001 OpClearExpired sample_cache). done. Defined.

End WeatherCacheMore.

(** ** More on the rate limiters *)

Section RateLimiterFacts.
Import Timers UIUtils.
Context {A : Type}.

Lemma debounce_spec_sublist (wait : Z) (p : tie_policy) (events : list (Z * A)) :
  debounce_spec wait p events `sublist_of` (delayed wait <$> events).
Proof.
  induction events as [|[t a] rest IH]; [constructor|].
  destruct rest as [|[t' a'] rest'].
  - simpl. by repeat constructor.
  - change (debounce_spec wait p ((t, a) :: (t', a') :: rest'))
      with (if runs_before p t' (t + wait)
            then (t + wait, a) :: debounce_spec wait p ((t', a') :: rest')
            else debounce_spec wait p ((t', a') :: rest')).
    rewrite fmap_cons.
    destruct (runs_before p t' (t + wait)).
    + by apply sublist_skip.
    + by apply sublist_cons.
Qed.

Lemma debounce_spec_last (wait : Z) (p : tie_policy) (events : list (Z * A)) t a :
  last (debounce_spec wait p (events ++ [(t, a)])) = Some (t + wait, a).
Proof.
  induction events as [|[t0 a0] rest IH]; [done|].
  change (((t0, a0) :: rest) ++ [(t, a)]) with ((t0, a0) :: (rest ++ [(t, a)])).
  destruct (rest ++ [(t, a)]) as [|[t1 a1] rest'] eqn:E.
  - by destruct rest.
  - change (debounce_spec wait p ((t0, a0) :: (t1, a1) :: rest'))
      with (if runs_before p t1 (t0 + wait)
            then (t0 + wait, a0) :: debounce_spec wait p ((t1, a1) :: rest')
            else debounce_spec wait p ((t1, a1) :: rest')).
    destruct (runs_before p t1 (t0 + wait)); [|done].
    destruct (debounce_spec wait p ((t1, a1) :: rest')) as [|x l] eqn:El; [done|].
    by rewrite last_cons_cons.
Qed.

(** Calls that went through the throttle, seen from a running cooldown:
    none before the cooldown ends, and each at least [limit] after the one
    before. *)
Lemma throttle_spec_spaced (limit : Z) (p : tie_policy) (events : list (Z * A)) :
  0 <= limit ->
  forall cooldown,
    Sorted (fun x y => x.1 + limit <= y.1) (throttle_spec limit p cooldown events) /\
    (forall c, cooldown = Some c ->
       Forall (fun e => c <= e.1) (throttle_spec limit p cooldown events)).
Proof.
  intros Hlimit.
  assert (Hhd : forall (t : Z) (a : A) l,
             Forall (fun e => t + limit <= e.1) l ->
             HdRel (fun x y : Z * A => x.1 + limit <= y.1) (t, a) l).
  { intros t a l Hl. destruct Hl; constructor. done. }
  assert (Hbefore : forall t c, runs_before p t c = true -> c <= t).
  { intros t c. destruct p; simpl; [rewrite Z.leb_le | rewrite Z.ltb_lt]; lia. }
  induction events as [|[t a] rest IH]; intros cooldown.
  - simpl. split; [constructor|]. by intros.
  - destruct cooldown as [c|].
    + simpl. destruct (runs_before p t c) eqn:Hready.
      * destruct (IH (Some (t + limit))) as [Hs Hall].
        specialize (Hall _ eq_refl). apply Hbefore in Hready. split.
        -- constructor; [done|]. by apply Hhd.
        -- intros c' [= <-]. constructor; [done|].
           eapply Forall_impl; [exact Hall|]. simpl. intros; lia.
      * apply IH.
    + simpl. destruct (IH (Some (t + limit))) as [Hs Hall]. split.
      * constructor; [done|]. apply Hhd. by apply Hall.
      * done.
Qed.

Lemma throttle_spec_sublist (limit : Z) (p : tie_policy) (events : list (Z * A)) :
  forall cooldown, throttle_spec limit p cooldown events `sublist_of` events.
Proof.
  induction events as [|[t a] rest IH]; intros cooldown; [constructor|].
  destruct cooldown as [c|]; simpl.
  - destruct (runs_before p t c).
    + by apply sublist_skip.
    + by apply sublist_cons.
  - by apply sublist_skip.
Qed.

End RateLimiterFacts.

(** X7: the throttle keeps its promise on the rate: of the calls made to
    the throttled function, those that reach [func] are some of them, in
    the same order and at the time they were made, and each comes at least
    [limit] after the one before; calls dropped during a cooldown are never
    replayed. *)
Theorem throttle_rate_bound {A : Type}
  (limit : Z) (p : Timers.tie_policy) (events : list (Z * A)) :
  0 <= limit ->
  UIUtils.t_calls (UIUtils.throttle_session limit p events) `sublist_of` events /\
  Sorted (fun x y => x.1 + limit <= y.1)
         (UIUtils.t_calls (UIUtils.throttle_session limit p events)).
Proof.
  intros Hlimit.
  rewrite (proj1 (throttle_session_spec limit Hlimit p events)). split.
  - apply throttle_spec_sublist.
  - by apply throttle_spec_spaced.
Qed.

Lemma throttle_rate_bound_witness :
  UIUtils.t_calls
    (UIUtils.throttle_session 200 Timers.TimersFirst
       [(0, "a"); (150, "b"); (200, "c"); (390, "d"); (400, "e")])
    `sublist_of` [(0, "a"); (150, "b"); (200, "c"); (390, "d"); (400, "e")] /\
  Sorted (fun x y => x.1 + 200 <= y.1)
    (UIUtils.t_calls
       (UIUtils.throttle_session 200 Timers.TimersFirst
          [(0, "a"); (150, "b"); (200, "c"); (390, "d"); (400, "e")])).
Proof. apply (@throttle_rate_bound string). lia. Defined.

(** X8: the debounced function never loses the last invocation: whatever
    came before, the last call [func] receives is the one of the last
    invocation, [wait] after it and with its arguments; and every call
    [func] receives is the call of one invocation delayed by [wait], in the
    order of the invocations, so there are no more calls than
    invocations. *)
Theorem debounce_trailing_call {A : Type}
  (wait : Z) (p : Timers.tie_policy) (events : list (Z * A)) (t : Z) (a : A) :
  0 <= wait ->
  let calls :=
    UIUtils.d_calls (UIUtils.debounce_session wait p (events ++ [(t, a)])) in
  last calls = Some (t + wait, a) /\
  calls `sublist_of` (UIUtils.delayed wait <$> (events ++ [(t, a)])) /\
  (length calls <= S (length events))%nat.
Proof.
  intros Hwait calls. unfold calls.
  rewrite (proj1 (debounce_session_spec wait Hwait p _)).
  split; [apply debounce_spec_last|].
  pose proof (debounce_spec_sublist wait p (events ++ [(t, a)])) as Hsub.
  split; [done|].
  apply sublist_length in Hsub.
  rewrite length_fmap, length_app in Hsub. simpl in Hsub. lia.
Qed.

Lemma debounce_trailing_call_witness :
  last (UIUtils.d_calls
          (UIUtils.debounce_session 300 Timers.EventsFirst
             ([(0, "os"); (1000, "osl")] ++ [(1100, "oslo")])))
  = Some (1100 + 300, "oslo").
Proof.
  apply (@debounce_trailing_call string 300 Timers.EventsFirst
           [(0, "os"); (1000, "osl")] 1100 "oslo").
  lia.
Defined.

Section ToastFacts.
Import Timers UIUtils.

Lemma drain_unfold {Cb State : Type} (get_timers : State -> queue Cb)
  (set_timers : queue Cb -> State -> State) (run_cb : Z -> Cb -> State -> State)
  (fuel : nat) (ready : Z -> bool) (s : State) :
  drain get_timers set_timers run_cb (S fuel) ready s =
  match earliest (pending (get_timers s)) with
  | Some t =>
      if ready (timer_due t)
      then drain get_timers set_timers run_cb fuel ready
             (fire get_timers set_timers run_cb t s)
      else s
  | None => s
  end.
Proof. reflexivity. Qed.

(** Comparisons of times and of handles that arithmetic settles. *)
Ltac settle :=
  repeat first
    [ rewrite Nat.eqb_refl
    | match goal with
      | |- context [Nat.eqb ?a ?b] =>
          rewrite (proj2 (Nat.eqb_neq a b)) by lia
      | |- context [?a <? ?b] =>
          first [ rewrite (proj2 (Z.ltb_lt a b)) by lia
                | rewrite (proj2 (Z.ltb_ge a b)) by lia ]
      | |- context [?a <=? ?b] =>
          first [ rewrite (proj2 (Z.leb_le a b)) by lia
                | rewrite (proj2 (Z.leb_gt a b)) by lia ]
      end ].

Ltac tick :=
  rewrite drain_unfold;
  repeat (progress (cbn -[drain Z.add Z.max Z.leb Z.ltb Nat.eqb toast_classes];
                    settle)).

(** Removing a child that is there once, at the end. *)
Lemma detach_last (bd : list nat) (n : nat) :
  n ∉ bd ->
  existsb (Nat.eqb n) (bd ++ [n]) = true /\
  List.filter (fun child => negb (Nat.eqb child n)) (bd ++ [n]) = bd.
Proof.
  intros Hn. split.
  - rewrite existsb_app. simpl. rewrite Nat.eqb_refl. by destruct (existsb _ bd).
  - rewrite List.filter_app. simpl. rewrite Nat.eqb_refl. simpl.
    rewrite app_nil_r. apply forallb_filter_id.
    apply forallb_forall. intros x Hx. apply negb_true_iff, Nat.eqb_neq.
    intros ->. apply Hn. by apply list_elem_of_In.
Qed.

Ltac toast_start :=
  unfold page_at, showToast; change (3 * 1)%nat with 3%nat;
  cbn -[drain Z.add Z.max Z.leb Z.ltb Nat.eqb toast_classes];
  change (0 `max` 100) with 100.

Ltac toast_run_timers :=
  repeat tick; change (0 `max` 300) with 300; repeat tick;
  cbn -[Z.add Z.max Z.leb Z.ltb Nat.eqb toast_classes removeChild].

Ltac toast_seen :=
  unfold off_screen, on_screen; cbn [elements body];
  split;
  [ apply elem_of_app; right; by apply list_elem_of_singleton
  | eexists; split;
    [ rewrite ?lookup_alter_eq, lookup_insert_eq; reflexivity
    | match goal with tp : toast_type |- _ => by destruct tp end ] ].

Section OneToast.
Variables (els : gmap nat element) (bd : list nat) (n k : nat) (un : list string).
Variables (now duration : Z) (msg : string) (tp : toast_type).
Hypothesis fresh : n ∉ bd.

Let pg : page := Page els bd n (Queue k []) un.
Let d : Z := Z.max 0 duration.
Let view (t : Z) : page := page_at 1 t (showToast now msg tp duration pg).

Lemma toast_before_slide_in (t : Z) : t < now + 100 -> off_screen n (view t).
Proof.
  intros Ht. assert (Hd : 0 <= d) by apply Z.le_max_l.
  unfold view, pg. toast_start. fold d.
  destruct (Z.lt_ge_cases d 100); destruct (Z.lt_ge_cases t (now + d));
    try lia; toast_run_timers; toast_seen.
Qed.

Lemma toast_slid_in (t : Z) : now + 100 <= t -> t < now + d -> on_screen n (view t).
Proof.
  intros Ht Ht'. unfold view, pg. toast_start. fold d.
  toast_run_timers; toast_seen.
Qed.

Lemma toast_sliding_out (t : Z) :
  100 <= d -> now + d <= t -> t < now + d + 300 -> off_screen n (view t).
Proof.
  intros Hd Ht Ht'. unfold view, pg. toast_start. fold d.
  toast_run_timers; toast_seen.
Qed.

(** With a duration under 100 ms the slide out runs first, on a toast
    that is out of view already; the slide in follows and the toast stays
    in view until it is removed. *)
Lemma toast_short_duration (t : Z) :
  d < 100 -> now + 100 <= t -> t < now + d + 300 -> on_screen n (view t).
Proof.
  intros Hd Ht Ht'. assert (Hd0 : 0 <= d) by apply Z.le_max_l.
  unfold view, pg. toast_start. fold d.
  toast_run_timers; toast_seen.
Qed.

Lemma toast_removed (t : Z) :
  now + d + 300 <= t ->
  body (view t) = bd /\ pending (page_timers (view t)) = [] /\
  uncaught (view t) = un /\
  exists e, elements (view t) !! n = Some e /\ textContent e = msg.
Proof.
  intros Ht. assert (Hd0 : 0 <= d) by apply Z.le_max_l.
  destruct (detach_last bd n fresh) as [Hin Hout].
  unfold view, pg. toast_start. fold d.
  destruct (Z.lt_ge_cases d 100); toast_run_timers;
    unfold removeChild; cbn [body set_page_timers]; rewrite Hin;
    cbn -[toast_classes]; rewrite Hout;
    (split; [done|]); (split; [done|]); (split; [done|]);
    eexists; (split; [rewrite ?lookup_alter_eq, lookup_insert_eq; reflexivity|done]).
Qed.

(** At any time the event loop has run every timer that was due. *)
Lemma toast_view_settled (t : Z) :
  Forall (fun tm => t < timer_due tm) (pending (page_timers (view t))).
Proof.
  assert (Hd0 : 0 <= d) by apply Z.le_max_l.
  destruct (detach_last bd n fresh) as [Hin Hout].
  unfold view, pg. toast_start. fold d.
  destruct (Z.lt_ge_cases d 100); destruct (Z.lt_ge_cases t (now + 100));
    destruct (Z.lt_ge_cases t (now + d));
    destruct (Z.lt_ge_cases t (now + d + 300)); try lia;
    toast_run_timers;
    try (unfold removeChild; cbn [body set_page_timers]; rewrite Hin;
         cbn -[toast_classes Z.add]);
    repeat constructor; cbn [timer_due]; lia.
Qed.

End OneToast.

(** X9: the life of a toast shown on a page with no timer pending. It
    enters the document out of view and stays so until 100 ms have passed;
    it is then in view until [duration] has passed, slides out, and 300 ms
    later is removed: the children of the body are those from before, no
    timer is left and the removal does not throw. With a duration under
    100 ms the slide out runs before the slide in, so the toast comes into
    view at 100 ms and is removed without sliding out. A negative duration
    counts as 0. The message stays the element's text, and at every time
    the timers that were due have run. *)
Theorem toast_lifecycle (pg : page) (now duration : Z) (msg : string)
  (tp : toast_type) :
  pending (page_timers pg) = [] ->
  next_element pg ∉ body pg ->
  let toast := next_element pg in
  let d := Z.max 0 duration in
  let view := fun t => page_at 1 t (showToast now msg tp duration pg) in
  (forall t, t < now + 100 -> off_screen toast (view t)) /\
  (forall t, now + 100 <= t -> t < now + d -> on_screen toast (view t)) /\
  (forall t, 100 <= d -> now + d <= t -> t < now + d + 300 ->
     off_screen toast (view t)) /\
  (forall t, d < 100 -> now + 100 <= t -> t < now + d + 300 ->
     on_screen toast (view t)) /\
  (forall t, now + d + 300 <= t ->
     body (view t) = body pg /\ pending (page_timers (view t)) = [] /\
     uncaught (view t) = uncaught pg /\
     exists e, elements (view t) !! toast = Some e /\ textContent e = msg) /\
  (forall t, Forall (fun tm => t < timer_due tm) (pending (page_timers (view t)))).
Proof.
  destruct pg as [els bd n [k ps] un]. simpl. intros -> Hfresh.
  split; [intros t; by apply toast_before_slide_in|].
  split; [intros t; by apply toast_slid_in|].
  split; [intros t; by apply toast_sliding_out|].
  split; [intros t; by apply toast_short_duration|].
  split; [intros t; by apply toast_removed|].
  intros t. by apply toast_view_settled.
Qed.

Lemma toast_lifecycle_witness :
  on_screen 0 (page_at 1 1500 (showToast 0 "Saved" ToastSuccess 3000 empty_page)) /\
  body (page_at 1 3300 (showToast 0 "Saved" ToastSuccess 3000 empty_page)) = [].
Proof.
  destruct (toast_lifecycle empty_page 0 3000 "Saved" ToastSuccess)
    as (_ & Hin & _ & _ & Hgone & _).
  - reflexivity.
  - apply not_elem_of_nil.
  - split.
    + apply Hin; simpl; lia.
    + apply (Hgone 3300). simpl. lia.
Defined.

End ToastFacts.

(** ** More on the formatting and classification helpers *)

Section WeatherUtilsMore.
Import WeatherUtils ChartUtils.

(** Division by a constant, for linear arithmetic. *)
Ltac q_linear :=
  unfold Qdiv in *;
  change (/ (5 # 1))%Q with (1 # 5)%Q in *;
  change (/ (9 # 1))%Q with (1 # 9)%Q in *;
  change (/ (45 # 2))%Q with (2 # 45)%Q in *;
  change (inject_Z 16) with (16 # 1)%Q in *;
  lra.





(** X11: the temperature conversions preserve order, strictly, and -40 is
    the one temperature that reads the same on both scales. *)
Theorem temperature_order :
  (forall c1 c2 : Q,
     (c1 < c2 <-> celsiusToFahrenheit c1 < celsiusToFahrenheit c2)%Q) /\
  (forall f1 f2 : Q,
     (f1 < f2 <-> fahrenheitToCelsius f1 < fahrenheitToCelsius f2)%Q) /\
  (forall c : Q, (celsiusToFahrenheit c == c <-> c == - (40 # 1))%Q) /\
  (forall f : Q, (fahrenheitToCelsius f == f <-> f == - (40 # 1))%Q).
Proof.
  unfold celsiusToFahrenheit, fahrenheitToCelsius.
  repeat split; intros; q_linear.
Qed.

(** The six buckets of an AQI value, by the tests in the order the code
    makes them. *)
Ltac aqi_buckets x :=
  destruct (Qle_bool x (50 # 1));
  [|destruct (Qle_bool x (100 # 1));
    [|destruct (Qle_bool x (150 # 1));
      [|destruct (Qle_bool x (200 # 1));
        [|destruct (Qle_bool x (300 # 1))]]]].

(** X12: the level and the colour of an AQI value come from the same six
    buckets: two values have the same colour on the gauge exactly when
    they have the same level, and the level is always one of the six. *)
Theorem aqi_colour_matches_level (a b : Q) :
  (getAQIColor a = getAQIColor b <-> level (getAQILevel a) = level (getAQILevel b)) /\
  level (getAQILevel a) ∈
    ["Good"; "Moderate"; "Unhealthy for Sensitive Groups"; "Unhealthy";
     "Very Unhealthy"; "Hazardous"].
Proof.
  unfold getAQIColor, getAQILevel. split.
  - aqi_buckets a; aqi_buckets b; simpl; split; intros H;
      first [reflexivity | discriminate H].
  - aqi_buckets a; simpl; repeat first [by left | right].
Qed.

Lemma string_length_app (s1 s2 : string) :
  String.length (s1 +:+ s2) = (String.length s1 + String.length s2)%nat.
Proof. induction s1 as [|c s1 IH]; simpl; [done | by rewrite IH]. Qed.

Lemma string_app_inv_tail (s1 s2 r : string) :
  s1 +:+ r = s2 +:+ r -> s1 = s2.
Proof.
  revert s2. induction s1 as [|c s1 IH]; intros [|c' s2] H; simpl in H.
  - done.
  - apply (f_equal String.length) in H. simpl in H.
    rewrite ?string_length_app in H. simpl in H. lia.
  - apply (f_equal String.length) in H. simpl in H.
    rewrite ?string_length_app in H. simpl in H. lia.
  - injection H as -> H. f_equal. by apply IH.
Qed.

(** X13: [formatTemperature] shows a temperature to the nearest degree:
    two temperatures (of magnitude under 10^21, where the script prints
    plain decimals) are shown alike exactly when they round to the same
    integer, so the text changes only across a half degree; a missing
    temperature is shown as "--" whatever the unit. *)
Theorem formatTemperature_rounds (t t' : Q) (unit : string) :
  Z.abs (Math_round t) < 10 ^ 21 -> Z.abs (Math_round t') < 10 ^ 21 ->
  (formatTemperature (Some t) unit = formatTemperature (Some t') unit
   <-> Math_round t = Math_round t') /\
  (Math_round t = Math_round t' ->
     (- (1 # 1) < t - t')%Q /\ (t - t' < 1 # 1)%Q) /\
  formatTemperature None unit = "--".
Proof.
  intros _ _. split; [|split; [|done]].
  - unfold formatTemperature. split.
    + intros H. apply string_app_inv_tail in H. by apply (inj pretty) in H.
    + by intros ->.
  - intros Heq.
    destruct (Math_round_nearest t) as [Hlo Hhi].
    destruct (Math_round_nearest t') as [Hlo' Hhi'].
    rewrite Heq in Hlo, Hhi. revert Hlo Hhi Hlo' Hhi'.
    generalize (inject_Z (Math_round t')). intros r Hlo Hhi Hlo' Hhi'.
    split; lra.
Qed.

Lemma formatTemperature_rounds_witness :
  formatTemperature (Some (216 # 10)) "C" = formatTemperature (Some (224 # 10)) "C"
  <-> Math_round (216 # 10) = Math_round (224 # 10).
Proof.
  apply (formatTemperature_rounds (216 # 10) (224 # 10) "C");
    vm_compute; reflexivity.
Defined.

Lemma own_property_None (key : string) (obj : list (string * string)) :
  key ∉ obj.*1 -> own_property key obj = None.
Proof.
  induction obj as [|[k v] rest IH]; intros Hin; [done|]. simpl.
  destruct (String.eqb k key) eqn:E.
  - apply String.eqb_eq in E as ->. destruct Hin. simpl. by left.
  - apply IH. intros Hin'. apply Hin. simpl. by right.
Qed.

Lemma existsb_eqb_false (key : string) (l : list string) :
  key ∉ l -> existsb (String.eqb key) l = false.
Proof.
  induction l as [|x l IH]; intros Hin; [done|]. simpl.
  destruct (String.eqb key x) eqn:E.
  - apply String.eqb_eq in E as ->. destruct Hin. by left.
  - apply IH. intros Hin'. apply Hin. by right.
Qed.

(** X14: every icon code of the table gets an icon of its own, never the
    fallback and never an empty text; every other string gets the fallback
    icon, except the names that any object inherits from [Object.prototype],
    for which the lookup returns the inherited property instead of an
    icon. *)
Theorem getWeatherIcon_cases (code : string) :
  (code ∈ iconMap.*1 ->
     exists s, getWeatherIcon code = Icon s /\ s <> fallback_icon /\ s <> "") /\
  (code ∉ iconMap.*1 -> code ∉ object_prototype_names ->
     getWeatherIcon code = Icon fallback_icon) /\
  (code ∈ object_prototype_names -> getWeatherIcon code = InheritedProperty code).
Proof.
  split; [|split].
  - intros Hin. cbn in Hin.
    repeat (apply elem_of_cons in Hin as [->|Hin]);
      try (eexists; split; [reflexivity | split; discriminate]).
    by apply elem_of_nil in Hin.
  - intros Hmap Hproto. unfold getWeatherIcon.
    by rewrite own_property_None, existsb_eqb_false.
  - intros Hin. unfold object_prototype_names in Hin.
    repeat (apply elem_of_cons in Hin as [->|Hin]); try reflexivity.
    by apply elem_of_nil in Hin.
Qed.

Lemma getWeatherIcon_cases_witness :
  (exists s, getWeatherIcon "10d" = Icon s /\ s <> fallback_icon /\ s <> "") /\
  getWeatherIcon "99x" = Icon fallback_icon /\
  getWeatherIcon "toString" = InheritedProperty "toString".
Proof.
  split; [|split].
  - apply (proj1 (getWeatherIcon_cases "10d")). cbn. set_solver.
  - apply (proj1 (proj2 (getWeatherIcon_cases "99x"))); cbn;
      intros H; repeat (apply elem_of_cons in H as [H|H]; [discriminate H|]);
      by apply elem_of_nil in H.
  - apply (proj2 (proj2 (getWeatherIcon_cases "toString"))).
    unfold object_prototype_names. set_solver.
Defined.

Lemma toUpperCase_idempotent (c : ascii) : toUpperCase (toUpperCase c) = toUpperCase c.
Proof. destruct c as [[] [] [] [] [] [] [] []]; reflexivity. Qed.

Lemma toUpperCase_ascii (c : ascii) :
  (nat_of_ascii c <? 128)%nat = true -> (nat_of_ascii (toUpperCase c) <? 128)%nat = true.
Proof. destruct c as [[] [] [] [] [] [] [] []]; intros H; first [reflexivity | discriminate H]. Qed.

(** X15: [getWeatherDescription], on a description that is empty or
    starts in the ASCII range, only touches the first character: the length
    and everything after the first character are kept, the result starts in
    the ASCII range too, and capitalising twice is capitalising once. The
    empty description stays empty. *)
Theorem getWeatherDescription_first_only (description : string) :
  starts_in_ascii description = true ->
  String.length (getWeatherDescription description) = String.length description /\
  (forall c rest, description = String c rest ->
     getWeatherDescription description = String (toUpperCase c) rest) /\
  getWeatherDescription (getWeatherDescription description)
  = getWeatherDescription description /\
  starts_in_ascii (getWeatherDescription description) = true /\
  getWeatherDescription "" = "".
Proof.
  intros Hascii. destruct description as [|c rest]; simpl.
  - repeat split. intros c rest H. discriminate H.
  - split; [done|]. split; [by intros c' rest' [= <- <-]|].
    split; [by rewrite toUpperCase_idempotent|].
    split; [by apply toUpperCase_ascii | done].
Qed.

Lemma getWeatherDescription_first_only_witness :
  getWeatherDescription (getWeatherDescription "clear sky")
  = getWeatherDescription "clear sky".
Proof.
  apply (getWeatherDescription_first_only "clear sky"). reflexivity.
Defined.

End WeatherUtilsMore.

(** ** More on the API client and the search box *)

Section ApiMore.
Import JS WeatherAPI.
Local Open Scope js_scope.

(** The world after a call, whatever the reply. *)
Lemma invoke_fetched (c : api_call) (w : world) :
  fetched (snd (invoke c w)) = fetched w ++ [request_of c] /\
  network (snd (invoke c w)) = network w.
Proof.
  rewrite invoke_shape, fetch_check_parse. simpl.
  destruct (network w (length (fetched w)) (request_of c)) as [resp|e]; [|done].
  destruct (resp_ok resp); [|done]. by destruct (resp_json resp).
Qed.

(** X16: the request behind each method. Every call sends one request to a
    path under [/api/]; [searchCity] alone posts, with the query in a JSON
    body, and the six others send a GET without a body. An optional
    parameter ([country], [startDate], [endDate]) that is [null] or the
    empty string is left out of the query, so the call is the same call as
    without it. *)
Theorem api_request_shape (c : api_call) (w : world) :
  (exists r, fetched (snd (invoke c w)) = fetched w ++ [r] /\
     (exists rest, req_path r = "/api/" +:+ rest) /\
     ((exists q, c = CallSearchCity q /\ req_method r = "POST" /\
                 req_body r = Some (JObj [("query", JStr q)])) \/
      ((forall q, c <> CallSearchCity q) /\ req_method r = "GET" /\
       req_body r = None /\ req_headers r = []))) /\
  (forall city,
     invoke (CallCurrentWeather city (Some "")) = invoke (CallCurrentWeather city None) /\
     invoke (CallAirQuality city (Some "")) = invoke (CallAirQuality city None) /\
     invoke (CallHistoricalWeather city (Some "") (Some ""))
     = invoke (CallHistoricalWeather city None None)) /\
  (forall city country, country <> "" ->
     req_query (request_of (CallCurrentWeather city (Some country)))
     = Params [("city", JStr city); ("country", JStr country)]).
Proof.
  split; [|split].
  - exists (request_of c). split; [apply invoke_fetched|].
    destruct c; simpl; (split; [by eexists|]);
      first [ left; by eexists | right; by repeat split ].
  - done.
  - intros city country Hne. simpl.
    destruct (String.eqb country "") eqn:E; [|done].
    by apply String.eqb_eq in E.
Qed.

Lemma api_request_shape_witness :
  req_query (request_of (CallCurrentWeather "Oslo" (Some "NO")))
  = Params [("city", JStr "Oslo"); ("country", JStr "NO")].
Proof.
  apply (proj2 (proj2 (api_request_shape (CallAlerts "Oslo") html_world))).
  discriminate.
Defined.


End ApiMore.

Section SearchFacts.
Import JS Timers UIUtils Search.







End SearchFacts.

(** ** More on the localStorage helper *)

(** X19: what was saved is what is loaded. On a browser where the value
    serialises to a text (never empty for JSON), the write goes through,
    the store gives the text back and the text parses to the value, [load]
    after [save] returns the value and not the default, and nothing is
    logged. *)
Theorem save_then_load {Store V : Type} (B : StorageUtils.backend Store V)
  (k : string) (v d : V) (w : StorageUtils.world Store)
  (text : string) (st st' : Store) :
  StorageUtils.JSON_stringify B v = JS.Normal text ->
  text <> "" ->
  StorageUtils.setItem B k text (StorageUtils.store w) = (JS.Normal tt, st) ->
  StorageUtils.getItem B k st = (JS.Normal (Some text), st') ->
  StorageUtils.JSON_parse B text = JS.Normal v ->
  StorageUtils.load B k d (snd (StorageUtils.save B k v w))
  = (JS.Normal v, StorageUtils.World st' (StorageUtils.console w)).
Proof.
  intros Hs Hne Hset Hget Hparse.
  unfold StorageUtils.save, StorageUtils.load, JS.try_catch, JS.bind, JS.await,
    StorageUtils.lift_store.
  rewrite Hs, Hset. simpl. rewrite Hget. simpl.
  destruct (String.eqb text "") eqn:E.
  - by apply String.eqb_eq in E.
  - simpl. by rewrite Hparse.
Qed.

Lemma save_then_load_witness :
  StorageUtils.load StorageUtils.literal_backend "metric" JS.JNull
    (snd (StorageUtils.save StorageUtils.literal_backend "metric" (JS.JBool true)
            StorageUtils.corrupt_store))
  = (JS.Normal (JS.JBool true),
     StorageUtils.World
       (StorageUtils.QuotaStore
          (<["metric" := "true"]> {[ "theme" := "dark" ]}) 10 false) []).
Proof.
  apply (save_then_load StorageUtils.literal_backend "metric" (JS.JBool true)
           JS.JNull StorageUtils.corrupt_store "true"
           (StorageUtils.QuotaStore
              (<["metric" := "true"]> {[ "theme" := "dark" ]}) 10 false)).
  - reflexivity.
  - discriminate.
  - vm_compute. reflexivity.
  - vm_compute. reflexivity.
  - reflexivity.
Defined.



(** ** Charts *)

Section ChartFacts.
Import JS ChartUtils.

Lemma Math_min_spec (a b : Q) :
  (Math_min a b <= a)%Q /\ (Math_min a b <= b)%Q /\
  (Math_min a b == a \/ Math_min a b == b)%Q.
Proof.
  unfold Math_min. destruct (Qle_bool a b) eqn:E.
  - apply Qle_bool_iff in E. split; [apply Qle_refl|]. split; [done|]. by left.
  - assert (b < a)%Q.
    { apply Qnot_le_lt. intros H. apply Qle_bool_iff in H. congruence. }
    split; [by apply Qlt_le_weak|]. split; [apply Qle_refl|]. by right.
Qed.

Lemma gauge_radius (w h : Q) :
  Qle_bool 0 (Math_min (w / (2 # 1)) (h / (2 # 1)) - (20 # 1)) = true
  <-> (40 # 1 <= w)%Q /\ (40 # 1 <= h)%Q.
Proof.
  rewrite Qle_bool_iff.
  destruct (Math_min_spec (w / (2 # 1)) (h / (2 # 1))) as (Ha & Hb & Hc).
  revert Ha Hb Hc. generalize (Math_min (w / (2 # 1)) (h / (2 # 1))).
  intros m. unfold Qdiv. change (/ (2 # 1))%Q with (1 # 2)%Q.
  intros Ha Hb [Hc|Hc]; split; try (intros; split); intros; lra.
Qed.

Lemma bind_normal {W X Y} (m : M W X) (k : X -> M W Y) (w w' : W) (x : X) :
  m w = (Normal x, w') -> bind m k w = k x w'.
Proof. unfold bind. by intros ->. Qed.

Lemma bind_throw {W X Y} (m : M W X) (k : X -> M W Y) (w w' : W) (e : error) :
  m w = (Throw e, w') -> bind m k w = (Throw e, w').
Proof. unfold bind. by intros ->. Qed.

Lemma arc_ok (x y r f t : Q) (c : context) :
  Qle_bool 0 r = true ->
  arc x y r f t c =
  (Normal tt,
   Context (width c) (height c) (strokeStyle c) (lineWidth c)
           (fillStyle c) (font c) (textAlign c)
           (path c ++ [ArcPath x y r f t]) (paint c)).
Proof. unfold arc. by intros ->. Qed.

(** One statement of the drawing code. *)
Ltac gauge_step :=
  first [ erewrite bind_normal by (apply arc_ok; eassumption)
        | erewrite bind_normal by reflexivity ];
  cbn [width height strokeStyle lineWidth fillStyle font textAlign path paint
       app List.map].

(** The context after the gauge is drawn on a canvas that is large
    enough. *)
Lemma gauge_drawn (value maxValue : Q) (ctx : context) :
  (40 # 1 <= width ctx)%Q -> (40 # 1 <= height ctx)%Q ->
  let centerX := (width ctx / (2 # 1))%Q in
  let centerY := (height ctx / (2 # 1))%Q in
  let radius := (Math_min centerX centerY - (20 # 1))%Q in
  let value_arc :=
    ArcPath centerX centerY radius (- (1 # 2))
            (- (1 # 2) + value / maxValue * (100 # 1) / (100 # 1)) in
  createAQIGauge value maxValue ctx =
  (Normal tt,
   Context (width ctx) (height ctx) (getAQIColor value) (20 # 1)
           "#6b7280" "14px Inter" "center" [value_arc]
           [Stroked (ArcPath centerX centerY radius 0 1) "#e5e7eb" (20 # 1);
            Stroked value_arc (getAQIColor value) (20 # 1);
            FilledText (NumberToString value) centerX (centerY + (10 # 1))
                       "#1f2937" "bold 24px Inter" "center";
            FilledText (Literal "AQI") centerX (centerY + (40 # 1))
                       "#6b7280" "14px Inter" "center"]).
Proof.
  intros Hw Hh.
  pose proof (proj2 (gauge_radius (width ctx) (height ctx)) (conj Hw Hh)) as Hr.
  unfold createAQIGauge. repeat gauge_step. reflexivity.
Qed.

(** X21: what the gauge paints. On a canvas of at least 40 by 40 it clears
    what was there and paints four things: the grey background arc of half
    a turn, the value arc, the value and the label. The value arc sweeps
    the fraction [value / maxValue] of half a turn, in the colour of the
    value's AQI bucket, and is not capped: a value above [maxValue] sweeps
    more than the background. What is on the canvas afterwards does not
    depend on what was drawn before. On a smaller canvas the radius is
    negative: the call throws after it has cleared the canvas. *)
Theorem gauge_painting (value maxValue : Q) (ctx : context) :
  ~ (maxValue == 0)%Q ->
  ((40 # 1 <= width ctx)%Q -> (40 # 1 <= height ctx)%Q ->
     exists ctx' background value_arc value_text label,
       createAQIGauge value maxValue ctx = (Normal tt, ctx') /\
       paint ctx' = [Stroked background "#e5e7eb" (20 # 1);
                     Stroked value_arc (getAQIColor value) (20 # 1);
                     value_text; label] /\
       (arc_to_pi background - arc_from_pi background == 1)%Q /\
       (arc_to_pi value_arc - arc_from_pi value_arc == value / maxValue)%Q /\
       (0 < maxValue -> maxValue < value ->
          1 < arc_to_pi value_arc - arc_from_pi value_arc)%Q /\
       (forall value' maxValue',
          paint (snd (createAQIGauge value maxValue
                        (snd (createAQIGauge value' maxValue' ctx))))
          = paint ctx')) /\
  (~ ((40 # 1 <= width ctx)%Q /\ (40 # 1 <= height ctx)%Q) ->
     fst (createAQIGauge value maxValue ctx) = Throw index_size_error /\
     paint (snd (createAQIGauge value maxValue ctx)) = []).
Proof.
  intros Hmax. split.
  - intros Hw Hh.
    assert (He : (- (1 # 2) + value / maxValue * (100 # 1) / (100 # 1)
                  - - (1 # 2) == value / maxValue)%Q) by (field; exact Hmax).
    do 5 eexists. split; [by apply gauge_drawn|].
    cbn [paint arc_to_pi arc_from_pi].
    split; [reflexivity|]. split; [reflexivity|]. split; [exact He|]. split.
    + intros Hpos Hgt. rewrite He.
      apply Qlt_shift_div_l; [done|]. by rewrite Qmult_1_l.
    + intros value' maxValue'.
      rewrite (gauge_drawn value' maxValue' ctx Hw Hh). cbn [snd].
      by rewrite gauge_drawn.
  - intros Hsmall.
    assert (Hr : Qle_bool 0 (Math_min (width ctx / (2 # 1)) (height ctx / (2 # 1))
                             - (20 # 1)) = false).
    { destruct (Qle_bool 0 _) eqn:E; [|done].
      apply gauge_radius in E. by destruct Hsmall. }
    unfold createAQIGauge. do 2 gauge_step.
    erewrite bind_throw
      by (unfold arc; cbn [width height]; rewrite Hr; reflexivity).
    done.
Qed.

Lemma gauge_painting_witness :
  fst (createAQIGauge (42 # 1) default_maxValue
         (Context (30 # 1) (120 # 1) "#000000" (1 # 1) "#000000" "10px sans-serif"
                  "start" [] []))
  = Throw index_size_error.
Proof.
  apply (gauge_painting (42 # 1) default_maxValue
           (Context (30 # 1) (120 # 1) "#000000" (1 # 1) "#000000"
                    "10px sans-serif" "start" [] [])).
  - q_decide.
  - intros [H _]. revert H. q_decide.
Defined.

(** X22: the options of a chart are merged one level deep: an option the
    caller gives replaces the default under that key whole, nested settings
    included, and every other default is kept. The line chart has a default
    [interaction] and the bar chart has none. *)
Theorem chart_options_shallow (data : json) (options : gmap string json) (k : string) :
  let line := createTemperatureChart data options in
  let bar := createComparisonChart data options in
  (forall v, options !! k = Some v ->
     chart_options line !! k = Some v /\ chart_options bar !! k = Some v) /\
  (options !! k = None ->
     chart_options line !! k = temperature_defaults !! k /\
     chart_options bar !! k = comparison_defaults !! k) /\
  (options !! "interaction" = None ->
     is_Some (chart_options line !! "interaction") /\
     chart_options bar !! "interaction" = None) /\
  chart_type line = "line" /\ chart_type bar = "bar" /\
  chart_data line = data /\ chart_data bar = data.
Proof.
  simpl. unfold spread. split; [|split; [|split]].
  - intros v Hk. split; by apply lookup_union_Some_l.
  - intros Hk. split; by apply lookup_union_r.
  - intros Hk. rewrite !lookup_union_r by done. split; [|by vm_compute].
    vm_compute. by eexists.
  - done.
Qed.

Lemma chart_options_shallow_witness :
  chart_options
    (createTemperatureChart JNull {[ "plugins" := JObj [("title", JStr "Oslo")] ]})
    !! "plugins"
  = Some (JObj [("title", JStr "Oslo")]).
Proof.
  apply (proj1 (chart_options_shallow JNull
                  {[ "plugins" := JObj [("title", JStr "Oslo")] ]} "plugins")).
  vm_compute. reflexivity.
Defined.

End ChartFacts.
